(** * bypass.cc: a keyed store of JavaScript values kept outside the V8 heap

    A shallow embedding of [src/bypass.cc].  The file has three layers:

    - the part of the V8 embedding API that [bypass.cc] calls
      ([Value::IsInt32], [String::WriteUtf8], [String::AsciiValue],
      [Object::Set], ...), modelled on the values a script can hand over;
    - the [JsValue] class hierarchy with [from_v8] and [to_v8];
    - the [BypassStore] methods [Set], [Get], [Del] and [List] over the
      [std::map] that backs the store.

    Definitions come first, theorems after them. *)

From Stdlib Require Import ZArith List Bool Lia Sorted Permutation.
Import ListNotations.

Local Open Scope Z_scope.
Local Set Warnings "-register-all".

(** ** Fixed-width integers *)

Module Int.

(** Conversion to a signed integer of [w] bits, as a C++ narrowing
    conversion or ECMAScript's ToInt32 does it: modulo [2^w], into
    [-2^(w-1) .. 2^(w-1) - 1]. *)
Definition to_signed (w : Z) (z : Z) : Z :=
  let m := z mod 2 ^ w in
  if m <? 2 ^ (w - 1) then m else m - 2 ^ w.


Definition to_int32 : Z -> Z := to_signed 32.

Definition INT32_MIN : Z := - 2 ^ 31.
Definition INT32_MAX : Z := 2 ^ 31 - 1.
Definition INT64_MIN : Z := - 2 ^ 63.
Definition INT64_MAX : Z := 2 ^ 63 - 1.

Definition in_int32 (z : Z) : bool := (INT32_MIN <=? z) && (z <=? INT32_MAX).
Definition in_int64 (z : Z) : bool := (INT64_MIN <=? z) && (z <=? INT64_MAX).

End Int.

(** ** Double-precision numbers

    [bypass.cc] never computes with a double: it classifies one
    ([IsInt32]), converts it to an integer ([Int32Value], [IntegerValue])
    and builds one from an integer ([Int32::New]).  A double is therefore
    kept by the kind of value it holds: every IEEE-754 double is exactly
    one of the five shapes below. *)

Inductive double : Type :=
| DInt (z : Z)                  (* a finite double whose value is the integer z; +0 is DInt 0 *)
| DFrac (m : Z) (k : positive)  (* the finite, non-integral double m / 2^k, m odd *)
| DNegZero                      (* -0 *)
| DInf (negative : bool)        (* +Infinity, -Infinity *)
| DNaN.

Module Double.

Definition eqb (a b : double) : bool :=
  match a, b with
  | DInt x, DInt y => x =? y
  | DFrac m k, DFrac n j => (m =? n) && (k =? j)%positive
  | DNegZero, DNegZero => true
  | DInf s, DInf t => Bool.eqb s t
  | DNaN, DNaN => true
  | _, _ => false
  end.

(** The integer a finite double is truncated to (rounding toward zero);
    [None] for NaN and the infinities. *)
Definition trunc (d : double) : option Z :=
  match d with
  | DInt z => Some z
  | DFrac m k => Some (Z.quot m (2 ^ Z.pos k))
  | DNegZero => Some 0
  | DInf _ | DNaN => None
  end.

(** [static_cast<int64_t>(double)].  C++ defines it only when the
    truncated value fits; where it does not fit (or for NaN) the x86-64
    conversion instruction yields INT64_MIN, which is what is written
    here. *)
Definition static_cast_int64 (d : double) : Z :=
  match trunc d with
  | Some z => if Int.in_int64 z then z else Int.INT64_MIN
  | None => Int.INT64_MIN
  end.

(** ECMAScript ToInt32 and ToUint32: NaN and the infinities give 0, any
    other number is truncated and reduced modulo 2^32. *)
Definition ToInt32 (d : double) : Z :=
  match trunc d with
  | Some z => Int.to_int32 z
  | None => 0
  end.


(** ECMAScript ToInteger: NaN becomes +0, any other number is truncated
    (the infinities stay). *)
Definition ToInteger (d : double) : double :=
  match d with
  | DNaN => DInt 0
  | DInf s => DInf s
  | DNegZero => DNegZero
  | DInt z => DInt z
  | DFrac m k => DInt (Z.quot m (2 ^ Z.pos k))
  end.

End Double.

(** ** JavaScript strings and their UTF-8 form

    A JavaScript string is kept as its sequence of code points, each in
    [0 .. 0x10FFFF]; a surrogate that has no partner is a code point of its
    own, a surrogate pair is written as the supplementary code point it
    denotes.  A [char] buffer or [std::string] is a list of bytes, each in
    [0 .. 255]. *)

Definition jsstring : Type := list Z.
Definition bytes : Type := list Z.

Module Utf8.

Definition REPLACEMENT : Z := 65533.  (* U+FFFD *)

Definition valid_code_point (c : Z) : bool := (0 <=? c) && (c <? 1114112).

(** The UTF-8 bytes of one code point. *)
Definition encode_char (c : Z) : bytes :=
  if c <? 128 then [c]
  else if c <? 2048 then [192 + c / 64; 128 + c mod 64]
  else if c <? 65536 then
    [224 + c / 4096; 128 + (c / 64) mod 64; 128 + c mod 64]
  else
    [240 + c / 262144; 128 + (c / 4096) mod 64;
     128 + (c / 64) mod 64; 128 + c mod 64].

Definition char_length (c : Z) : Z :=
  if c <? 128 then 1 else if c <? 2048 then 2 else if c <? 65536 then 3 else 4.

Definition encode (s : jsstring) : bytes := flat_map encode_char s.

Definition is_continuation (b : Z) : bool := (128 <=? b) && (b <? 192).

(** Decoding never fails: a byte that does not start a well-formed
    sequence is read as U+FFFD and decoding goes on after it. *)
Fixpoint decode (bs : bytes) : jsstring :=
  match bs with
  | [] => []
  | b0 :: r0 =>
    if b0 <? 128 then b0 :: decode r0
    else if (192 <=? b0) && (b0 <? 224) then
      match r0 with
      | b1 :: r1 =>
        if is_continuation b1
        then ((b0 - 192) * 64 + (b1 - 128)) :: decode r1
        else REPLACEMENT :: decode r0
      | _ => REPLACEMENT :: decode r0
      end
    else if (224 <=? b0) && (b0 <? 240) then
      match r0 with
      | b1 :: b2 :: r2 =>
        if is_continuation b1 && is_continuation b2
        then ((b0 - 224) * 4096 + (b1 - 128) * 64 + (b2 - 128)) :: decode r2
        else REPLACEMENT :: decode r0
      | _ => REPLACEMENT :: decode r0
      end
    else if (240 <=? b0) && (b0 <? 248) then
      match r0 with
      | b1 :: b2 :: b3 :: r3 =>
        if is_continuation b1 && is_continuation b2 && is_continuation b3
        then ((b0 - 240) * 262144 + (b1 - 128) * 4096
              + (b2 - 128) * 64 + (b3 - 128)) :: decode r3
        else REPLACEMENT :: decode r0
      | _ => REPLACEMENT :: decode r0
      end
    else REPLACEMENT :: decode r0
  end.

End Utf8.

(** *** The [v8::String] calls of bypass.cc *)

Module V8String.

(** [String::Utf8Length()]: the number of bytes of the UTF-8 form. *)
Definition Utf8Length (s : jsstring) : Z :=
  fold_right (fun c n => Utf8.char_length c + n) 0 s.

(** [String::WriteUtf8(buffer, capacity)]: the bytes written into the
    buffer.  Only whole characters are written, and writing stops at the
    first character that no longer fits.  (A terminating NUL is added only
    when room is left after the last character; with a buffer of exactly
    [Utf8Length()] bytes none is.) *)
Fixpoint WriteUtf8 (s : jsstring) (capacity : Z) : bytes :=
  match s with
  | [] => []
  | c :: r =>
    if Utf8.char_length c <=? capacity
    then Utf8.encode_char c ++ WriteUtf8 r (capacity - Utf8.char_length c)
    else []
  end.

(** The UTF-16 code units of a code point. *)
Definition utf16_units (c : Z) : list Z :=
  if c <? 65536 then [c]
  else [55296 + (c - 65536) / 1024; 56320 + (c - 65536) mod 1024].

(** [String::WriteAscii]: every UTF-16 code unit is cast to [char], which
    keeps its low eight bits, and a NUL is written as a space. *)
Definition ascii_char (u : Z) : Z :=
  let c := u mod 256 in if c =? 0 then 32 else c.

Definition WriteAscii (s : jsstring) : bytes :=
  map ascii_char (flat_map utf16_units s).

(** [String::AsciiValue key(k)], and the [std::string] built from its
    buffer and its [length()]. *)
Definition AsciiValue (k : jsstring) : bytes := WriteAscii k.

(** [std::string::c_str()]: the bytes followed by a NUL. *)
Definition c_str (s : bytes) : bytes := s ++ [0].

(** The bytes [strlen] counts: those before the first NUL. *)
Fixpoint until_nul (data : bytes) : bytes :=
  match data with
  | [] => []
  | b :: r => if b =? 0 then [] else b :: until_nul r
  end.

(** [String::New(data, length)], with [length = -1] (the default of the
    one-argument call) meaning "up to the first NUL". *)
Definition New (data : bytes) (length : Z) : jsstring :=
  if length =? 0 then []
  else if length =? -1 then Utf8.decode (until_nul data)
  else Utf8.decode (firstn (Z.to_nat length) data).

End V8String.

(** ** [std::map]

    A [std::map<K, V>] is kept as the list of its entries in iteration
    order, which is ascending key order.  [cmp] is the three-way form of
    the key type's [operator<]. *)

Module StdMap.

Section Operations.

Context {K V : Type} (cmp : K -> K -> comparison).

(** [m[k] = v]: the entry for [k] is created at its place in key order if
    there is none, and its value is overwritten if there is one. *)
Fixpoint assign (k : K) (v : V) (m : list (K * V)) : list (K * V) :=
  match m with
  | [] => [(k, v)]
  | (k', v') :: rest =>
    match cmp k k' with
    | Lt => (k, v) :: (k', v') :: rest
    | Eq => (k', v) :: rest
    | Gt => (k', v') :: assign k v rest
    end
  end.

(** [m.find(k)]: the value of the entry whose key is equivalent to [k];
    [None] stands for [m.end()]. *)
Fixpoint find (k : K) (m : list (K * V)) : option V :=
  match m with
  | [] => None
  | (k', v') :: rest =>
    match cmp k k' with
    | Eq => Some v'
    | _ => find k rest
    end
  end.

(** [m.erase(k)]: every entry whose key is equivalent to [k] is removed. *)
Fixpoint erase (k : K) (m : list (K * V)) : list (K * V) :=
  match m with
  | [] => []
  | (k', v') :: rest =>
    match cmp k k' with
    | Eq => erase k rest
    | _ => (k', v') :: erase k rest
    end
  end.

(** The keys met by an iteration from [begin()] to [end()]. *)
Definition keys (m : list (K * V)) : list K := map fst m.

(** The invariant of the container: the iteration meets the keys in
    strictly ascending order. *)
Definition key_lt (a b : K) : Prop := cmp a b = Lt.

Definition ordered (m : list (K * V)) : Prop := StronglySorted key_lt (keys m).

End Operations.

End StdMap.

(** [operator<] of [std::string]: bytes are compared as unsigned chars,
    the first difference decides, and a proper prefix comes first. *)
Fixpoint string_compare (a b : bytes) : comparison :=
  match a, b with
  | [], [] => Eq
  | [], _ :: _ => Lt
  | _ :: _, [] => Gt
  | x :: a', y :: b' =>
    match x ?= y with
    | Eq => string_compare a' b'
    | c => c
    end
  end.

(** ** Values of the script

    What [from_v8] can tell about a [v8::Value].  An array is seen through
    [Length()] and [Get(i)] only, so it is the list of what [Get(i)]
    returns (a hole reads as [undefined]).  An object is seen through
    [GetPropertyNames()] and [Get(k)] only, so it is the list of its
    enumerable properties in enumeration order.  A function is an object
    too ([v8::Function] derives from [v8::Object]). *)

Inductive v8value : Type :=
| V8Undefined
| V8Null
| V8Boolean (b : bool)
| V8Number (d : double)
| V8String (s : jsstring)
| V8Array (elems : list v8value)
| V8Object (props : list (jsstring * v8value))
| V8Function (props : list (jsstring * v8value)).

Definition jsstring_eqb (a b : jsstring) : bool :=
  match list_eq_dec Z.eq_dec a b with left _ => true | right _ => false end.

Module V8.

(** *** Type tests of [v8::Value] *)

Definition IsNumber (v : v8value) : bool :=
  match v with V8Number _ => true | _ => false end.

(** [Value::IsInt32()]: the value is a number that is a 32-bit signed
    integer.  -0, the fractions, NaN and the infinities are not. *)
Definition IsInt32 (v : v8value) : bool :=
  match v with
  | V8Number (DInt z) => Int.in_int32 z
  | _ => false
  end.

Definition IsString (v : v8value) : bool :=
  match v with V8String _ => true | _ => false end.

Definition IsArray (v : v8value) : bool :=
  match v with V8Array _ => true | _ => false end.

(** [Value::IsObject()] holds for every JavaScript object: arrays and
    functions as well as plain objects, but not [null]. *)
Definition IsObject (v : v8value) : bool :=
  match v with
  | V8Array _ | V8Object _ | V8Function _ => true
  | _ => false
  end.

(** *** Numbers *)

(** [Number::NumberValue()], [Int32Value()] and [Uint32Value()] of a
    [Local<Number>]. *)
Definition NumberValue (d : double) : double := d.
Definition Int32Value (d : double) : Z := Double.ToInt32 d.

(** [Number::New(double)] and [Int32::New(int32_t)]: the number with that
    value.  [v8::Int32] and [v8::Uint32] declare no [New] of their own:
    [Int32::New] and [Uint32::New] are both the inherited
    [Integer::New(int32_t)], so the [uint32_t] that [Uint32::New(m_val)] is
    called with is narrowed to [int32_t] at the call. *)
Definition Number_New (value : double) : v8value := V8Number value.
Definition Int32_New (value : Z) : v8value := V8Number (DInt value).
Definition Uint32_New (value : Z) : v8value := Int32_New (Int.to_int32 value).

Definition Undefined : v8value := V8Undefined.

(** *** Arrays *)

Definition Array_Length (elems : list v8value) : Z := Z.of_nat (length elems).

Definition Array_Get (elems : list v8value) (i : nat) : v8value :=
  nth i elems V8Undefined.

(** *** Objects *)

Definition GetPropertyNames (props : list (jsstring * v8value)) : list jsstring :=
  map fst props.

Fixpoint Object_Get (props : list (jsstring * v8value)) (k : jsstring) : v8value :=
  match props with
  | [] => V8Undefined
  | (k', v) :: rest => if jsstring_eqb k k' then v else Object_Get rest k
  end.

Fixpoint Object_Has (props : list (jsstring * v8value)) (k : jsstring) : bool :=
  match props with
  | [] => false
  | (k', _) :: rest => jsstring_eqb k k' || Object_Has rest k
  end.

(** The array index a property name denotes, if it denotes one: a decimal
    numeral without leading zero, below 2^32 - 1. *)
Fixpoint decimal (acc : Z) (k : jsstring) : option Z :=
  match k with
  | [] => Some acc
  | c :: rest =>
    if (48 <=? c) && (c <=? 57) then decimal (acc * 10 + (c - 48)) rest else None
  end.

Definition array_index (k : jsstring) : option Z :=
  match k with
  | [] => None
  | c :: rest =>
    if (c =? 48) && (match rest with [] => true | _ => false end) then Some 0
    else if (49 <=? c) && (c <=? 57) then
      match decimal 0 k with
      | Some i => if i <? 4294967295 then Some i else None
      | None => None
      end
    else None
  end.

(** [Object::New()] and [obj->Set(key, value)].  A property that exists
    keeps its place and takes the new value.  A new property whose name is
    an array index goes among the indexed properties, which V8 enumerates
    first and in ascending index order; any other new property comes
    last. *)
Definition Object_New : list (jsstring * v8value) := [].

Fixpoint Object_replace (props : list (jsstring * v8value)) (k : jsstring) (v : v8value)
  : list (jsstring * v8value) :=
  match props with
  | [] => []
  | (k', v') :: rest =>
    if jsstring_eqb k k' then (k', v) :: rest else (k', v') :: Object_replace rest k v
  end.

Fixpoint Object_add_indexed (props : list (jsstring * v8value))
         (i : Z) (k : jsstring) (v : v8value) : list (jsstring * v8value) :=
  match props with
  | [] => [(k, v)]
  | (k', v') :: rest =>
    match array_index k' with
    | Some j =>
      if i <? j then (k, v) :: (k', v') :: rest
      else (k', v') :: Object_add_indexed rest i k v
    | None => (k, v) :: (k', v') :: rest
    end
  end.

(** [Array::New()] and [arr->Set(i, value)]: writing past the end grows
    the array, the skipped places reading as [undefined]. *)
Definition Array_New : list v8value := [].

Fixpoint Array_Set (elems : list v8value) (i : nat) (v : v8value) : list v8value :=
  match i, elems with
  | O, [] => [v]
  | O, _ :: rest => v :: rest
  | S i', [] => V8Undefined :: Array_Set [] i' v
  | S i', x :: rest => x :: Array_Set rest i' v
  end.

Definition Object_Set (props : list (jsstring * v8value)) (k : jsstring) (v : v8value)
  : list (jsstring * v8value) :=
  if Object_Has props k then Object_replace props k v
  else
    match array_index k with
    | Some i => Object_add_indexed props i k v
    | None => props ++ [(k, v)]
    end.

End V8.

(** ** The [JsValue] classes

    One constructor per class deriving from [JsValue], with the class's
    data members.  A [shared_ptr<JsValue>] is the value it points to:
    [from_v8] returns a fresh object each time, so no two pointers share a
    target and none is null (which is what the [if (val)] tests of the
    [to_v8] loops ask). *)

Inductive JsValue : Type :=
| JsUndefined
| JsString (m_buff : bytes) (m_size : Z)
| JsNumber (m_val : double)
| JsInt32 (m_val : Z)
| JsUint32 (m_val : Z)
| JsArray (m_vals : list JsValue)
| JsObj (m_values : list (bytes * JsValue)).

(** [JsObj::MemberMap] and [BypassStore::CacheMap]. *)
Definition MemberMap : Type := list (bytes * JsValue).
Definition CacheMap : Type := list (Z * JsValue).

(** *** [from_v8] of the leaf classes *)

Definition JsString_from_v8 (val : jsstring) : JsValue :=
  let m_size := V8String.Utf8Length val in
  let m_buff := V8String.WriteUtf8 val m_size in
  JsString m_buff m_size.

Definition JsNumber_from_v8 (val : double) : JsValue :=
  JsNumber (V8.NumberValue val).

Definition JsInt32_from_v8 (val : double) : JsValue :=
  JsInt32 (V8.Int32Value val).


(** *** The global [from_v8]

    The recursion follows the value: [JsArray::from_v8] and
    [JsObj::from_v8] call back into the global function for each element
    and each property.  The tests of the C++ function are made in the order
    IsNumber (IsInt32 inside), IsString, IsArray, IsObject; the
    constructors below are disjoint, so the [match] decides the same way
    (see [from_v8_dispatch]). *)
Fixpoint from_v8 (v8obj : v8value) : JsValue :=
  match v8obj with
  | V8Number d =>
    if V8.IsInt32 (V8Number d) then JsInt32_from_v8 d else JsNumber_from_v8 d
  | V8String s => JsString_from_v8 s
  | V8Array elems => JsArray (map from_v8 elems)
  | V8Object props | V8Function props =>
    JsObj (fold_left
             (fun (m_values : MemberMap) (kv : jsstring * v8value) =>
                StdMap.assign string_compare
                  (V8String.AsciiValue (fst kv)) (from_v8 (snd kv)) m_values)
             props [])
  | V8Undefined | V8Null | V8Boolean _ => JsUndefined
  end.

(** The loops of [JsArray::from_v8] and [JsObj::from_v8] as they are
    written, over the function [rec] they call for the parts. *)
Definition JsArray_from_v8 (rec : v8value -> JsValue) (arr : list v8value) : JsValue :=
  let length := Z.to_nat (V8.Array_Length arr) in
  JsArray
    (fold_left (fun m_vals i => m_vals ++ [rec (V8.Array_Get arr i)])
               (seq 0 length) []).

Definition JsObj_from_v8 (rec : v8value -> JsValue) (o : list (jsstring * v8value)) : JsValue :=
  let a := V8.GetPropertyNames o in
  JsObj
    (fold_left
       (fun (m_values : MemberMap) (k : jsstring) =>
          StdMap.assign string_compare
            (V8String.AsciiValue k) (rec (V8.Object_Get o k)) m_values)
       a []).

(** *** [to_v8]

    The virtual method, one case per class. *)
Fixpoint to_v8 (j : JsValue) : v8value :=
  match j with
  | JsUndefined => V8.Undefined
  | JsString m_buff m_size => V8String (V8String.New m_buff m_size)
  | JsNumber m_val => V8.Number_New m_val
  | JsInt32 m_val => V8.Int32_New m_val
  | JsUint32 m_val => V8.Uint32_New m_val
  | JsArray m_vals => V8Array (map to_v8 m_vals)
  | JsObj m_values =>
    V8Object
      (fold_left
         (fun obj (entry : bytes * JsValue) =>
            let key := V8String.New (V8String.c_str (fst entry)) (-1) in
            V8.Object_Set obj key (to_v8 (snd entry)))
         m_values V8.Object_New)
  end.

(** The loop of [JsArray::to_v8] as it is written: an array of [size]
    places, then one [Set] per index. *)
Definition JsArray_to_v8 (rec : JsValue -> v8value) (m_vals : list JsValue) : v8value :=
  let size := length m_vals in
  V8Array
    (fold_left (fun out i => V8.Array_Set out i (rec (nth i m_vals JsUndefined)))
               (seq 0 size) (repeat V8Undefined size)).

(** ** [BypassStore] *)

(** A [Handle<Value>]: empty, or holding a value. *)
Definition Handle : Type := option v8value.

(** [args[i]]: the i-th argument of the call, [undefined] when the call
    has fewer arguments. *)
Definition Arguments : Type := list v8value.

Definition arg (args : Arguments) (i : nat) : v8value := nth i args V8.Undefined.

Section KeyConversion.

(** ECMAScript's ToNumber on a string (the numeric-literal grammar) and on
    an object (ToPrimitive, which may run script) belong to the engine;
    they are taken as given. *)
Variable StringToNumber : jsstring -> double.
Variable ObjectToNumber : v8value -> double.

Definition ToNumber (v : v8value) : double :=
  match v with
  | V8Undefined => DNaN
  | V8Null => DInt 0
  | V8Boolean b => DInt (if b then 1 else 0)
  | V8Number d => d
  | V8String s => StringToNumber s
  | V8Array _ | V8Object _ | V8Function _ => ObjectToNumber v
  end.

(** [Value::IntegerValue()]: a number is cast to [int64_t] as it is, any
    other value goes through ToInteger first. *)
Definition IntegerValue (v : v8value) : Z :=
  let num := if V8.IsNumber v then ToNumber v else Double.ToInteger (ToNumber v) in
  Double.static_cast_int64 num.

(** Each method of [BypassStore] takes the call's arguments and the
    [m_cache] of the store it is called on, and gives back the handle it
    returns and the [m_cache] it leaves.  ([Set] is a word of the language
    here, so the methods carry the class name.) *)

(** [BypassStore::New]: a store whose map is empty. *)
Definition BypassStore_New : CacheMap := [].

Definition BypassStore_Set (args : Arguments) (m_cache : CacheMap) : Handle * CacheMap :=
  let key := arg args 0 in
  let val := arg args 1 in
  let k := IntegerValue key in
  (None, StdMap.assign Z.compare k (from_v8 val) m_cache).

Definition BypassStore_Get (args : Arguments) (m_cache : CacheMap) : Handle * CacheMap :=
  let key := arg args 0 in
  let k := IntegerValue key in
  match StdMap.find Z.compare k m_cache with
  | None => (Some V8.Undefined, m_cache)
  | Some second => (Some (to_v8 second), m_cache)
  end.

Definition BypassStore_Del (args : Arguments) (m_cache : CacheMap) : Handle * CacheMap :=
  let key := arg args 0 in
  let k := IntegerValue key in
  (None, StdMap.erase Z.compare k m_cache).

(** [Int32::New] takes an [int32_t]; the [int64_t] key is narrowed to it
    at the call. *)
Definition BypassStore_List (args : Arguments) (m_cache : CacheMap) : Handle * CacheMap :=
  let arr :=
    fst (fold_left
           (fun (st : list v8value * nat) (entry : Z * JsValue) =>
              let (arr, i) := st in
              (V8.Array_Set arr i (V8.Int32_New (Int.to_int32 (fst entry))), S i))
           m_cache (V8.Array_New, O)) in
  (Some (V8Array arr), m_cache).

(** A call of one of the four methods, and a run of calls on one store. *)
Inductive call : Type :=
| CallSet (args : Arguments)
| CallGet (args : Arguments)
| CallDel (args : Arguments)
| CallList (args : Arguments).

Definition invoke (c : call) (m_cache : CacheMap) : Handle * CacheMap :=
  match c with
  | CallSet args => BypassStore_Set args m_cache
  | CallGet args => BypassStore_Get args m_cache
  | CallDel args => BypassStore_Del args m_cache
  | CallList args => BypassStore_List args m_cache
  end.

Definition run (calls : list call) (m_cache : CacheMap) : CacheMap :=
  fold_left (fun m c => snd (invoke c m)) calls m_cache.

(** The call sets the entry of key [k]. *)
Definition sets_key (k : Z) (c : call) : bool :=
  match c with
  | CallSet args => IntegerValue (arg args 0) =? k
  | _ => false
  end.

End KeyConversion.

(** ** Notions the properties are stated with *)

(** No name occurs twice. *)
Fixpoint distinct (names : list jsstring) : bool :=
  match names with
  | [] => true
  | k :: rest => negb (existsb (jsstring_eqb k) rest) && distinct rest
  end.

(** Structural equality of two script values: same kind, equal numbers and
    strings, arrays equal element by element, objects with the same
    property names and structurally equal values under each name (in
    whatever order the names are enumerated). *)
Fixpoint structurally_equal (a b : v8value) : bool :=
  match a, b with
  | V8Undefined, V8Undefined => true
  | V8Null, V8Null => true
  | V8Boolean x, V8Boolean y => Bool.eqb x y
  | V8Number x, V8Number y => Double.eqb x y
  | V8String x, V8String y => jsstring_eqb x y
  | V8Array xs, V8Array ys =>
    (fix elems (xs ys : list v8value) : bool :=
       match xs, ys with
       | [], [] => true
       | x :: xs', y :: ys' => structurally_equal x y && elems xs' ys'
       | _, _ => false
       end) xs ys
  | V8Object ps, V8Object qs | V8Function ps, V8Function qs =>
    distinct (map fst ps) && (length ps =? length qs)%nat &&
    (fix members (ps : list (jsstring * v8value)) : bool :=
       match ps with
       | [] => true
       | (k, x) :: ps' =>
         V8.Object_Has qs k && structurally_equal x (V8.Object_Get qs k)
         && members ps'
       end) ps
  | _, _ => false
  end.

Definition valid_string (s : jsstring) : bool := forallb Utf8.valid_code_point s.




(** A property name made of ASCII characters other than NUL. *)
Definition ascii_name (k : jsstring) : bool :=
  forallb (fun c => (1 <=? c) && (c <? 128)) k.


(** A [JsUint32] node occurs somewhere in the tree. *)
Fixpoint has_uint32 (j : JsValue) : bool :=
  match j with
  | JsUint32 _ => true
  | JsArray m_vals => existsb has_uint32 m_vals
  | JsObj m_values => existsb (fun entry => has_uint32 (snd entry)) m_values
  | _ => false
  end.


(** ** Notions the further properties are stated with *)

(** Names in strictly ascending [std::string] order. *)
Fixpoint ascending (names : list bytes) : bool :=
  match names with
  | a :: (b :: _) as rest =>
    match string_compare a b with
    | Lt => ascending rest
    | _ => false
    end
  | _ => true
  end.

(** Every [JsObj] node of the tree meets its members in strictly ascending
    order of their names. *)
Fixpoint members_ascending (j : JsValue) : bool :=
  match j with
  | JsArray m_vals => forallb members_ascending m_vals
  | JsObj m_values =>
    ascending (map fst m_values)
    && forallb (fun entry => members_ascending (snd entry)) m_values
  | _ => true
  end.

(** Every [JsString] node of the tree holds a buffer of exactly [m_size]
    bytes. *)
Fixpoint buffers_filled (j : JsValue) : bool :=
  match j with
  | JsString m_buff m_size => Z.of_nat (length m_buff) =? m_size
  | JsArray m_vals => forallb buffers_filled m_vals
  | JsObj m_values => forallb (fun entry => buffers_filled (snd entry)) m_values
  | _ => true
  end.

(** No byte of the name is a NUL. *)
Definition without_nul (name : bytes) : bool := forallb (fun b => negb (b =? 0)) name.

(** No member name anywhere in the tree holds a NUL. *)
Fixpoint names_without_nul (j : JsValue) : bool :=
  match j with
  | JsArray m_vals => forallb names_without_nul m_vals
  | JsObj m_values =>
    forallb (fun entry => without_nul (fst entry) && names_without_nul (snd entry))
            m_values
  | _ => true
  end.

(** * Properties *)

(** ** Fixed-width integers and doubles *)

Lemma in_int32_bounds (z : Z) :
  Int.in_int32 z = true <-> - 2147483648 <= z <= 2147483647.
Proof.
  unfold Int.in_int32, Int.INT32_MIN, Int.INT32_MAX.
  rewrite andb_true_iff, !Z.leb_le. change (2 ^ 31) with 2147483648. lia.
Qed.

Lemma to_int32_in_range (z : Z) : Int.in_int32 (Int.to_int32 z) = true.
Proof.
  apply in_int32_bounds. unfold Int.to_int32, Int.to_signed.
  change (2 ^ 32) with 4294967296. change (2 ^ (32 - 1)) with 2147483648.
  pose proof (Z.mod_pos_bound z 4294967296 eq_refl).
  destruct (Z.ltb_spec (z mod 4294967296) 2147483648); lia.
Qed.

Lemma to_int32_id (z : Z) : Int.in_int32 z = true -> Int.to_int32 z = z.
Proof.
  intros H. apply in_int32_bounds in H. unfold Int.to_int32, Int.to_signed.
  change (2 ^ 32) with 4294967296. change (2 ^ (32 - 1)) with 2147483648.
  destruct (Z.ltb_spec (z mod 4294967296) 2147483648) as [Hlt | Hge];
    Z.div_mod_to_equations; lia.
Qed.

Lemma Double_eqb_refl (d : double) : Double.eqb d d = true.
Proof.
  destruct d as [z | m k | | s | ]; simpl; trivial.
  - apply Z.eqb_refl.
  - now rewrite Z.eqb_refl, Pos.eqb_refl.
  - now destruct s.
Qed.

Lemma jsstring_eqb_eq (a b : jsstring) : jsstring_eqb a b = true <-> a = b.
Proof.
  unfold jsstring_eqb. destruct (list_eq_dec Z.eq_dec a b); split; congruence.
Qed.

Lemma jsstring_eqb_refl (a : jsstring) : jsstring_eqb a a = true.
Proof. now apply jsstring_eqb_eq. Qed.

Lemma jsstring_eqb_neq (a b : jsstring) : jsstring_eqb a b = false <-> a <> b.
Proof.
  unfold jsstring_eqb. destruct (list_eq_dec Z.eq_dec a b); split; congruence.
Qed.

(** ** UTF-8 *)

(** Splits on every integer comparison of the goal and closes the
    branches that contradict the hypotheses. *)
Ltac split_tests :=
  repeat match goal with
         | |- context [?a <? ?b] =>
           destruct (Z.ltb_spec a b); try (exfalso; Z.div_mod_to_equations; lia)
         | |- context [?a <=? ?b] =>
           destruct (Z.leb_spec a b); try (exfalso; Z.div_mod_to_equations; lia)
         end.

Lemma valid_code_point_bounds (c : Z) :
  Utf8.valid_code_point c = true <-> 0 <= c < 1114112.
Proof.
  unfold Utf8.valid_code_point. rewrite andb_true_iff, Z.leb_le, Z.ltb_lt. tauto.
Qed.

Lemma decode_encode_char (c : Z) (rest : bytes) :
  Utf8.valid_code_point c = true ->
  Utf8.decode (Utf8.encode_char c ++ rest) = c :: Utf8.decode rest.
Proof.
  intros Hc. apply valid_code_point_bounds in Hc.
  unfold Utf8.encode_char.
  destruct (Z.ltb_spec c 128); [| destruct (Z.ltb_spec c 2048);
                                  [| destruct (Z.ltb_spec c 65536)]];
    cbn [app Utf8.decode]; unfold Utf8.is_continuation;
      split_tests; cbn [andb]; f_equal; Z.div_mod_to_equations; lia.
Qed.

Lemma decode_encode (s : jsstring) :
  valid_string s = true -> Utf8.decode (Utf8.encode s) = s.
Proof.
  induction s as [| c s IH]; intros Hs; [reflexivity |].
  simpl in Hs. apply andb_true_iff in Hs as [Hc Hs].
  unfold Utf8.encode in *. cbn [flat_map].
  rewrite decode_encode_char by assumption. now rewrite IH.
Qed.

Lemma encode_char_length (c : Z) :
  Z.of_nat (length (Utf8.encode_char c)) = Utf8.char_length c.
Proof.
  unfold Utf8.encode_char, Utf8.char_length.
  destruct (c <? 128), (c <? 2048), (c <? 65536); reflexivity.
Qed.

Lemma char_length_pos (c : Z) : 1 <= Utf8.char_length c <= 4.
Proof.
  unfold Utf8.char_length.
  destruct (c <? 128), (c <? 2048), (c <? 65536); lia.
Qed.

(** [Utf8Length] is the number of bytes of the UTF-8 form. *)
Lemma Utf8Length_encode (s : jsstring) :
  V8String.Utf8Length s = Z.of_nat (length (Utf8.encode s)).
Proof.
  induction s as [| c s IH]; [reflexivity |].
  unfold V8String.Utf8Length, Utf8.encode in *. cbn [fold_right flat_map].
  rewrite length_app, Nat2Z.inj_add, encode_char_length. lia.
Qed.

Lemma Utf8Length_nonneg (s : jsstring) : 0 <= V8String.Utf8Length s.
Proof. rewrite Utf8Length_encode. lia. Qed.

(** A buffer of at least [Utf8Length] bytes receives the whole string. *)
Lemma WriteUtf8_fits (s : jsstring) (capacity : Z) :
  V8String.Utf8Length s <= capacity ->
  V8String.WriteUtf8 s capacity = Utf8.encode s.
Proof.
  revert capacity. induction s as [| c s IH]; intros capacity Hcap; [reflexivity |].
  unfold V8String.Utf8Length in Hcap. cbn [fold_right] in Hcap.
  fold (V8String.Utf8Length s) in Hcap.
  cbn [V8String.WriteUtf8].
  destruct (Z.leb_spec (Utf8.char_length c) capacity) as [_ | Hlt].
  - rewrite IH by lia. reflexivity.
  - pose proof (Utf8Length_nonneg s). lia.
Qed.

(** What [JsString::from_v8] stores is the UTF-8 form and its length in
    bytes, and [JsString::to_v8] reads the string back from it. *)
Lemma JsString_from_v8_spec (s : jsstring) :
  JsString_from_v8 s = JsString (Utf8.encode s) (Z.of_nat (length (Utf8.encode s))).
Proof.
  unfold JsString_from_v8. rewrite WriteUtf8_fits by lia.
  now rewrite Utf8Length_encode.
Qed.

Lemma String_New_whole (data : bytes) :
  V8String.New data (Z.of_nat (length data)) = Utf8.decode data.
Proof.
  unfold V8String.New.
  destruct data as [| b data]; [reflexivity |].
  destruct (Z.eqb_spec (Z.of_nat (length (b :: data))) 0) as [H0 | _];
    [simpl in H0; lia |].
  destruct (Z.eqb_spec (Z.of_nat (length (b :: data))) (-1)) as [H1 | _]; [lia |].
  now rewrite Nat2Z.id, firstn_all.
Qed.

(** ASCII property names pass through [AsciiValue] and back through
    [String::New(c_str())] unchanged. *)

Lemma ascii_name_cons (c : Z) (k : jsstring) :
  ascii_name (c :: k) = true <-> 1 <= c < 128 /\ ascii_name k = true.
Proof.
  unfold ascii_name. cbn [forallb].
  rewrite !andb_true_iff, Z.leb_le, Z.ltb_lt. tauto.
Qed.

Lemma AsciiValue_ascii (k : jsstring) :
  ascii_name k = true -> V8String.AsciiValue k = k.
Proof.
  unfold V8String.AsciiValue, V8String.WriteAscii.
  induction k as [| c k IH]; intros Hk; [reflexivity |].
  apply ascii_name_cons in Hk as [Hc Hk].
  cbn [flat_map]. unfold V8String.utf16_units at 1.
  destruct (Z.ltb_spec c 65536); [| lia].
  cbn [app map]. rewrite IH by assumption. f_equal.
  unfold V8String.ascii_char. rewrite Z.mod_small by lia.
  destruct (Z.eqb_spec c 0); lia.
Qed.

Lemma until_nul_c_str (k : bytes) :
  ascii_name k = true -> V8String.until_nul (V8String.c_str k) = k.
Proof.
  unfold V8String.c_str.
  induction k as [| c k IH]; intros Hk; [reflexivity |].
  apply ascii_name_cons in Hk as [Hc Hk].
  cbn [app V8String.until_nul]. destruct (Z.eqb_spec c 0); [lia |].
  now rewrite IH.
Qed.

Lemma decode_ascii (k : bytes) : ascii_name k = true -> Utf8.decode k = k.
Proof.
  induction k as [| c k IH]; intros Hk; [reflexivity |].
  apply ascii_name_cons in Hk as [Hc Hk].
  cbn [Utf8.decode]. destruct (Z.ltb_spec c 128); [| lia]. now rewrite IH.
Qed.

Lemma String_New_c_str_ascii (k : bytes) :
  ascii_name k = true -> V8String.New (V8String.c_str k) (-1) = k.
Proof.
  intros Hk. unfold V8String.New. cbn [Z.eqb].
  rewrite until_nul_c_str by assumption. now apply decode_ascii.
Qed.

(** ** The order of [std::string] *)

Lemma string_compare_eq (a b : bytes) : string_compare a b = Eq <-> a = b.
Proof.
  revert b. induction a as [| x a IH]; intros [| y b]; cbn [string_compare];
    try (split; [discriminate | discriminate]); [tauto |].
  destruct (Z.compare_spec x y) as [-> | Hlt | Hgt].
  - rewrite IH. split; [now intros -> | now intros [= ->]].
  - split; [discriminate | intros [= -> _]; lia].
  - split; [discriminate | intros [= -> _]; lia].
Qed.

Lemma string_compare_antisym (a b : bytes) :
  string_compare b a = CompOpp (string_compare a b).
Proof.
  revert b. induction a as [| x a IH]; intros [| y b]; cbn [string_compare];
    try reflexivity.
  rewrite (Z.compare_antisym x y).
  destruct (x ?= y); cbn [CompOpp]; [apply IH | reflexivity | reflexivity].
Qed.

Lemma string_compare_trans (a b c : bytes) :
  string_compare a b = Lt -> string_compare b c = Lt -> string_compare a c = Lt.
Proof.
  revert b c. induction a as [| x a IH]; intros [| y b] [| z c];
    cbn [string_compare]; try discriminate; try reflexivity.
  destruct (Z.compare_spec x y) as [-> | Hxy | Hxy]; try discriminate.
  - destruct (Z.compare_spec y z) as [-> | Hyz | Hyz]; try discriminate.
    + apply IH.
    + reflexivity.
  - intros _.
    destruct (Z.compare_spec y z) as [-> | Hyz | Hyz]; try discriminate; intros _.
    + destruct (Z.compare_spec x z); [lia | reflexivity | lia].
    + destruct (Z.compare_spec x z); [lia | reflexivity | lia].
Qed.

(** ** [std::map] operations *)

Module StdMapFacts.

Section Order.

Context {K V : Type} (cmp : K -> K -> comparison).

Hypothesis cmp_eq : forall a b, cmp a b = Eq <-> a = b.
Hypothesis cmp_antisym : forall a b, cmp b a = CompOpp (cmp a b).
Hypothesis cmp_trans : forall a b c, cmp a b = Lt -> cmp b c = Lt -> cmp a c = Lt.

Local Abbreviation assign := (StdMap.assign cmp).
Local Abbreviation find := (StdMap.find cmp).
Local Abbreviation erase := (StdMap.erase cmp).
Local Abbreviation keys := (@StdMap.keys K V).
Local Abbreviation key_lt := (StdMap.key_lt cmp).
Local Abbreviation ordered := (@StdMap.ordered K V cmp).

Lemma cmp_refl (k : K) : cmp k k = Eq.
Proof. now apply cmp_eq. Qed.

Lemma cmp_neq (a b : K) : a <> b -> cmp a b <> Eq.
Proof. intros Hne Heq. now apply cmp_eq in Heq. Qed.

Lemma cmp_gt_lt (a b : K) : cmp a b = Gt -> cmp b a = Lt.
Proof. intros H. now rewrite cmp_antisym, H. Qed.

Lemma find_assign_same (k : K) (v : V) (m : list (K * V)) :
  find k (assign k v m) = Some v.
Proof.
  induction m as [| [k' v'] m IH]; cbn [StdMap.assign StdMap.find].
  - now rewrite cmp_refl.
  - destruct (cmp k k') eqn:Hc; cbn [StdMap.find].
    + now rewrite Hc.
    + now rewrite cmp_refl.
    + now rewrite Hc.
Qed.

Lemma find_assign_other (k k2 : K) (v : V) (m : list (K * V)) :
  k <> k2 -> find k2 (assign k v m) = find k2 m.
Proof.
  intros Hne. induction m as [| [k' v'] m IH]; cbn [StdMap.assign StdMap.find].
  - destruct (cmp k2 k) eqn:Hc; trivial. apply cmp_eq in Hc. congruence.
  - destruct (cmp k k') eqn:Hc; cbn [StdMap.find].
    + apply cmp_eq in Hc. subst k'.
      destruct (cmp k2 k) eqn:Hc2; trivial. apply cmp_eq in Hc2. congruence.
    + destruct (cmp k2 k) eqn:Hc2; trivial. apply cmp_eq in Hc2. congruence.
    + now rewrite IH.
Qed.

Lemma assign_assign (k : K) (v1 v2 : V) (m : list (K * V)) :
  assign k v2 (assign k v1 m) = assign k v2 m.
Proof.
  induction m as [| [k' v'] m IH]; cbn [StdMap.assign].
  - now rewrite cmp_refl.
  - destruct (cmp k k') eqn:Hc; cbn [StdMap.assign].
    + now rewrite Hc.
    + now rewrite cmp_refl.
    + now rewrite Hc, IH.
Qed.

Lemma find_erase_same (k : K) (m : list (K * V)) : find k (erase k m) = None.
Proof.
  induction m as [| [k' v'] m IH]; cbn [StdMap.erase StdMap.find]; trivial.
  destruct (cmp k k') eqn:Hc; cbn [StdMap.find]; rewrite ?Hc; assumption.
Qed.

Lemma find_erase_other (k k2 : K) (m : list (K * V)) :
  k <> k2 -> find k2 (erase k m) = find k2 m.
Proof.
  intros Hne. induction m as [| [k' v'] m IH]; cbn [StdMap.erase StdMap.find]; trivial.
  destruct (cmp k k') eqn:Hc; cbn [StdMap.find]; rewrite ?IH; trivial.
  apply cmp_eq in Hc. subst k'.
  destruct (cmp k2 k) eqn:Hc2; trivial. apply cmp_eq in Hc2. congruence.
Qed.

Lemma erase_absent (k : K) (m : list (K * V)) :
  find k m = None -> erase k m = m.
Proof.
  induction m as [| [k' v'] m IH]; cbn [StdMap.erase StdMap.find]; trivial.
  destruct (cmp k k') eqn:Hc; intros Hf; try discriminate; now rewrite IH.
Qed.

Lemma find_some_in_keys (k : K) (m : list (K * V)) :
  find k m <> None <-> In k (keys m).
Proof.
  induction m as [| [k' v'] m IH]; cbn [StdMap.find StdMap.keys map In fst].
  - tauto.
  - destruct (cmp k k') eqn:Hc.
    + apply cmp_eq in Hc. subst k'. split; [now left | discriminate].
    + rewrite IH. split; [now right | intros [-> | H]; [| exact H]].
      rewrite cmp_refl in Hc. discriminate.
    + rewrite IH. split; [now right | intros [-> | H]; [| exact H]].
      rewrite cmp_refl in Hc. discriminate.
Qed.

Lemma find_in (k : K) (v : V) (m : list (K * V)) :
  find k m = Some v -> In (k, v) m.
Proof.
  induction m as [| [k' v'] m IH]; cbn [StdMap.find]; [discriminate |].
  destruct (cmp k k') eqn:Hc.
  - apply cmp_eq in Hc. subst k'. intros [= ->]. now left.
  - intros H. right. now apply IH.
  - intros H. right. now apply IH.
Qed.

Lemma keys_assign (k x : K) (v : V) (m : list (K * V)) :
  In x (keys (assign k v m)) <-> x = k \/ In x (keys m).
Proof.
  induction m as [| [k' v'] m IH]; cbn [StdMap.assign].
  - cbn. intuition congruence.
  - destruct (cmp k k') eqn:Hc.
    + apply cmp_eq in Hc. subst k'. cbn. intuition congruence.
    + cbn. intuition congruence.
    + change (In x (k' :: keys (assign k v m)) <-> x = k \/ In x (k' :: keys m)).
      cbn [In]. rewrite IH. intuition congruence.
Qed.

Lemma keys_erase (k x : K) (m : list (K * V)) :
  In x (keys (erase k m)) <-> x <> k /\ In x (keys m).
Proof.
  induction m as [| [k' v'] m IH]; cbn [StdMap.erase].
  - cbn. tauto.
  - destruct (cmp k k') eqn:Hc.
    + apply cmp_eq in Hc. subst k'. rewrite IH. cbn. intuition congruence.
    + change (In x (k' :: keys (erase k m)) <-> x <> k /\ In x (k' :: keys m)).
      cbn [In]. rewrite IH. split; [| tauto].
      intros [-> | H]; [| tauto]. split; [| now left].
      intros ->. rewrite cmp_refl in Hc. discriminate.
    + change (In x (k' :: keys (erase k m)) <-> x <> k /\ In x (k' :: keys m)).
      cbn [In]. rewrite IH. split; [| tauto].
      intros [-> | H]; [| tauto]. split; [| now left].
      intros ->. rewrite cmp_refl in Hc. discriminate.
Qed.

Lemma ordered_nil : ordered [].
Proof. constructor. Qed.

Lemma ordered_assign (k : K) (v : V) (m : list (K * V)) :
  ordered m -> ordered (assign k v m).
Proof.
  unfold StdMap.ordered. induction m as [| [k' v'] m IH]; cbn [StdMap.assign]; intros Hm.
  - repeat constructor.
  - change (keys ((k', v') :: m)) with (k' :: keys m) in Hm.
    inversion Hm as [| ? ? Hs Hall]; subst.
    destruct (cmp k k') eqn:Hc.
    + exact Hm.
    + change (StronglySorted key_lt (k :: k' :: keys m)).
      constructor; [exact Hm |].
      constructor; [exact Hc |].
      eapply Forall_impl; [| exact Hall]. intros a Ha. exact (cmp_trans _ _ _ Hc Ha).
    + change (StronglySorted key_lt (k' :: keys (assign k v m))).
      constructor; [now apply IH |].
      apply Forall_forall. intros x Hx. apply keys_assign in Hx as [-> | Hx].
      * now apply cmp_gt_lt.
      * rewrite Forall_forall in Hall. now apply Hall.
Qed.

Lemma ordered_erase (k : K) (m : list (K * V)) :
  ordered m -> ordered (erase k m).
Proof.
  unfold StdMap.ordered. induction m as [| [k' v'] m IH]; cbn [StdMap.erase]; intros Hm.
  - constructor.
  - change (keys ((k', v') :: m)) with (k' :: keys m) in Hm.
    inversion Hm as [| ? ? Hs Hall]; subst.
    assert (Hkeep : StronglySorted key_lt (keys ((k', v') :: erase k m))).
    { change (StronglySorted key_lt (k' :: keys (erase k m))).
      constructor; [now apply IH |].
      apply Forall_forall. intros x Hx. apply keys_erase in Hx as [_ Hx].
      rewrite Forall_forall in Hall. now apply Hall. }
    destruct (cmp k k'); [now apply IH | exact Hkeep | exact Hkeep].
Qed.

Lemma ordered_NoDup (m : list (K * V)) : ordered m -> NoDup (keys m).
Proof.
  unfold StdMap.ordered. induction 1 as [| a l Hs IH Hall]; constructor; [| exact IH].
  intros Hin. rewrite Forall_forall in Hall. specialize (Hall _ Hin).
  unfold StdMap.key_lt in Hall. rewrite cmp_refl in Hall. discriminate.
Qed.

(** Assigning under a key the map does not hold adds one entry. *)
Lemma assign_fresh_perm (k : K) (v : V) (m : list (K * V)) :
  ~ In k (keys m) -> Permutation (assign k v m) ((k, v) :: m).
Proof.
  induction m as [| [k' v'] m IH]; cbn [StdMap.assign]; intros Hfresh.
  - reflexivity.
  - destruct (cmp k k') eqn:Hc.
    + apply cmp_eq in Hc. subst k'. exfalso. apply Hfresh. now left.
    + reflexivity.
    + rewrite IH; [apply perm_swap |]. intros Hin. apply Hfresh. now right.
Qed.

Lemma assign_In (k k' : K) (v x : V) (m : list (K * V)) :
  In (k', x) (assign k v m) -> (k' = k /\ x = v) \/ In (k', x) m.
Proof.
  induction m as [| [k0 v0] m IH]; cbn [StdMap.assign].
  - intros [[= <- <-] | []]. now left.
  - destruct (cmp k k0) eqn:Hc; cbn [In].
    + apply cmp_eq in Hc. subst k0.
      intros [[= <- <-] | Hin]; [now left | right; now right].
    + intros [[= <- <-] | Hin]; [now left | now right].
    + intros [Heq | Hin]; [right; now left |].
      destruct (IH Hin) as [Hnew | Hold]; [now left | right; now right].
Qed.

(** A loop of assignments, as [JsObj::from_v8] runs one. *)

Section Loop.

Context {A : Type} (name : A -> K) (value : A -> V).

Local Abbreviation loop :=
  (fold_left (fun (m : list (K * V)) (e : A) => assign (name e) (value e) m)).

Lemma loop_ordered (entries : list A) (m : list (K * V)) :
  ordered m -> ordered (loop entries m).
Proof.
  revert m. induction entries as [| e entries IH]; intros m Hm; cbn [fold_left].
  - exact Hm.
  - apply IH. now apply ordered_assign.
Qed.

Lemma loop_In (entries : list A) (m : list (K * V)) (k : K) (x : V) :
  In (k, x) (loop entries m) ->
  (exists e, In e entries /\ k = name e /\ x = value e) \/ In (k, x) m.
Proof.
  revert m. induction entries as [| e entries IH]; intros m; cbn [fold_left].
  - now right.
  - intros Hin. destruct (IH _ Hin) as [[e' [He' Hkx]] | Hm].
    + left. exists e'. split; [now right | exact Hkx].
    + destruct (assign_In _ _ _ _ _ Hm) as [[-> ->] | Hold].
      * left. exists e. split; [now left | split; reflexivity].
      * now right.
Qed.

Lemma loop_perm (entries : list A) (m : list (K * V)) :
  NoDup (keys m ++ map name entries) ->
  Permutation (loop entries m) (m ++ map (fun e => (name e, value e)) entries).
Proof.
  revert m. induction entries as [| e entries IH]; intros m Hnd; cbn [fold_left map].
  - now rewrite app_nil_r.
  - cbn [map] in Hnd.
    assert (Hfresh : ~ In (name e) (keys m)).
    { apply NoDup_remove_2 in Hnd. intros Hin. apply Hnd, in_or_app. now left. }
    pose proof (assign_fresh_perm (name e) (value e) m Hfresh) as Hstep.
    rewrite IH.
    + rewrite Hstep. now apply Permutation_middle.
    + apply (Permutation_NoDup (l := name e :: keys m ++ map name entries)).
      * change (name e :: keys m ++ map name entries)
          with (keys ((name e, value e) :: m) ++ map name entries).
        apply Permutation_app_tail.
        unfold StdMap.keys. apply Permutation_map. now symmetry.
      * apply (Permutation_NoDup (l := keys m ++ name e :: map name entries));
          [symmetry; apply Permutation_middle | exact Hnd].
Qed.

End Loop.

End Order.

End StdMapFacts.

(** *** The two maps of bypass.cc *)

Lemma Z_compare_trans (a b c : Z) : (a ?= b) = Lt -> (b ?= c) = Lt -> (a ?= c) = Lt.
Proof. rewrite !Z.compare_lt_iff. lia. Qed.

Lemma cache_find_assign_same (k : Z) (v : JsValue) (m : CacheMap) :
  StdMap.find Z.compare k (StdMap.assign Z.compare k v m) = Some v.
Proof. apply StdMapFacts.find_assign_same, Z.compare_eq_iff. Qed.

Lemma cache_find_assign_other (k k2 : Z) (v : JsValue) (m : CacheMap) :
  k <> k2 ->
  StdMap.find Z.compare k2 (StdMap.assign Z.compare k v m) = StdMap.find Z.compare k2 m.
Proof. apply StdMapFacts.find_assign_other, Z.compare_eq_iff. Qed.

Lemma cache_assign_assign (k : Z) (v1 v2 : JsValue) (m : CacheMap) :
  StdMap.assign Z.compare k v2 (StdMap.assign Z.compare k v1 m)
  = StdMap.assign Z.compare k v2 m.
Proof. apply StdMapFacts.assign_assign, Z.compare_eq_iff. Qed.

Lemma cache_find_erase_same (k : Z) (m : CacheMap) :
  StdMap.find Z.compare k (StdMap.erase Z.compare k m) = None.
Proof. apply StdMapFacts.find_erase_same. Qed.

Lemma cache_find_erase_other (k k2 : Z) (m : CacheMap) :
  k <> k2 ->
  StdMap.find Z.compare k2 (StdMap.erase Z.compare k m) = StdMap.find Z.compare k2 m.
Proof. apply StdMapFacts.find_erase_other, Z.compare_eq_iff. Qed.

Lemma cache_erase_absent (k : Z) (m : CacheMap) :
  StdMap.find Z.compare k m = None -> StdMap.erase Z.compare k m = m.
Proof. apply StdMapFacts.erase_absent. Qed.

Lemma cache_ordered_assign (k : Z) (v : JsValue) (m : CacheMap) :
  StdMap.ordered Z.compare m -> StdMap.ordered Z.compare (StdMap.assign Z.compare k v m).
Proof.
  apply StdMapFacts.ordered_assign;
    first [apply Z.compare_eq_iff | intros; apply Z.compare_antisym | apply Z_compare_trans].
Qed.

Lemma cache_ordered_erase (k : Z) (m : CacheMap) :
  StdMap.ordered Z.compare m -> StdMap.ordered Z.compare (StdMap.erase Z.compare k m).
Proof.
  apply StdMapFacts.ordered_erase;
    first [apply Z.compare_eq_iff | intros; apply Z.compare_antisym | apply Z_compare_trans].
Qed.

Lemma members_ordered_assign (k : bytes) (v : JsValue) (m : MemberMap) :
  StdMap.ordered string_compare m ->
  StdMap.ordered string_compare (StdMap.assign string_compare k v m).
Proof.
  apply StdMapFacts.ordered_assign;
    first [apply string_compare_eq | intros; apply string_compare_antisym
          | apply string_compare_trans].
Qed.

Lemma members_ordered_NoDup (m : MemberMap) :
  StdMap.ordered string_compare m -> NoDup (StdMap.keys m).
Proof. apply StdMapFacts.ordered_NoDup, string_compare_eq. Qed.

(** ** Induction over values and trees *)

Lemma v8value_induction (P : v8value -> Prop)
  (Hundefined : P V8Undefined)
  (Hnull : P V8Null)
  (Hboolean : forall b, P (V8Boolean b))
  (Hnumber : forall d, P (V8Number d))
  (Hstring : forall s, P (V8String s))
  (Harray : forall elems, Forall P elems -> P (V8Array elems))
  (Hobject : forall props, Forall (fun kv => P (snd kv)) props -> P (V8Object props))
  (Hfunction : forall props, Forall (fun kv => P (snd kv)) props -> P (V8Function props)) :
  forall v, P v.
Proof.
  fix IH 1. intros [| | b | d | s | elems | props | props].
  - exact Hundefined.
  - exact Hnull.
  - apply Hboolean.
  - apply Hnumber.
  - apply Hstring.
  - apply Harray. induction elems as [| x elems IHelems]; constructor;
      [apply IH | exact IHelems].
  - apply Hobject. induction props as [| [k x] props IHprops]; constructor;
      [apply IH | exact IHprops].
  - apply Hfunction. induction props as [| [k x] props IHprops]; constructor;
      [apply IH | exact IHprops].
Qed.

Lemma JsValue_induction (P : JsValue -> Prop)
  (Hundefined : P JsUndefined)
  (Hstring : forall m_buff m_size, P (JsString m_buff m_size))
  (Hnumber : forall m_val, P (JsNumber m_val))
  (Hint32 : forall m_val, P (JsInt32 m_val))
  (Huint32 : forall m_val, P (JsUint32 m_val))
  (Harray : forall m_vals, Forall P m_vals -> P (JsArray m_vals))
  (Hobj : forall m_values, Forall (fun entry => P (snd entry)) m_values -> P (JsObj m_values)) :
  forall j, P j.
Proof.
  fix IH 1. intros [| b n | d | i | u | m_vals | m_values].
  - exact Hundefined.
  - apply Hstring.
  - apply Hnumber.
  - apply Hint32.
  - apply Huint32.
  - apply Harray. induction m_vals as [| x m_vals IHvals]; constructor;
      [apply IH | exact IHvals].
  - apply Hobj. induction m_values as [| [k x] m_values IHvalues]; constructor;
      [apply IH | exact IHvalues].
Qed.

(** ** Properties of script objects *)

Lemma Object_Has_In (props : list (jsstring * v8value)) (k : jsstring) :
  V8.Object_Has props k = true <-> In k (map fst props).
Proof.
  induction props as [| [k' v] props IH]; cbn [V8.Object_Has map In fst].
  - split; [discriminate | tauto].
  - rewrite orb_true_iff, IH, jsstring_eqb_eq. intuition congruence.
Qed.

Lemma Object_Has_false (props : list (jsstring * v8value)) (k : jsstring) :
  V8.Object_Has props k = false <-> ~ In k (map fst props).
Proof.
  rewrite <- Object_Has_In. destruct (V8.Object_Has props k); split; congruence.
Qed.

Lemma Object_Get_In (props : list (jsstring * v8value)) (k : jsstring) (x : v8value) :
  NoDup (map fst props) -> In (k, x) props -> V8.Object_Get props k = x.
Proof.
  induction props as [| [k' v] props IH]; cbn [map fst In V8.Object_Get]; [tauto |].
  intros Hnd [Heq | Hin].
  - injection Heq as -> ->. now rewrite jsstring_eqb_refl.
  - inversion Hnd as [| ? ? Hnotin Hnd']; subst.
    destruct (jsstring_eqb k k') eqn:Hk.
    + apply jsstring_eqb_eq in Hk. subst k'. exfalso. apply Hnotin.
      change k with (fst (k, x)). now apply in_map.
    + now apply IH.
Qed.

Lemma Object_replace_keys (props : list (jsstring * v8value)) (k : jsstring) (v : v8value) :
  map fst (V8.Object_replace props k v) = map fst props.
Proof.
  induction props as [| [k' v'] props IH]; cbn [V8.Object_replace map fst]; [reflexivity |].
  destruct (jsstring_eqb k k'); cbn [map fst]; [reflexivity | now rewrite IH].
Qed.

Lemma Object_replace_In (props : list (jsstring * v8value)) (k k' : jsstring) (v x : v8value) :
  In (k', x) (V8.Object_replace props k v) -> (k' = k /\ x = v) \/ In (k', x) props.
Proof.
  induction props as [| [k0 v0] props IH]; cbn [V8.Object_replace In]; [tauto |].
  destruct (jsstring_eqb k k0) eqn:Hk; cbn [In].
  - apply jsstring_eqb_eq in Hk. subst k0.
    intros [[= <- <-] | Hin]; [now left | right; now right].
  - intros [Heq | Hin]; [right; now left |].
    destruct (IH Hin) as [Hnew | Hold]; [now left | right; now right].
Qed.

Lemma Object_add_indexed_perm (props : list (jsstring * v8value))
      (i : Z) (k : jsstring) (v : v8value) :
  Permutation (V8.Object_add_indexed props i k v) ((k, v) :: props).
Proof.
  induction props as [| [k' v'] props IH]; cbn [V8.Object_add_indexed]; [reflexivity |].
  destruct (V8.array_index k') as [j |]; [| reflexivity].
  destruct (i <? j); [reflexivity |].
  rewrite IH. apply perm_swap.
Qed.

(** A [Set] under a new name adds one property. *)
Lemma Object_Set_fresh_perm (props : list (jsstring * v8value)) (k : jsstring) (v : v8value) :
  ~ In k (map fst props) -> Permutation (V8.Object_Set props k v) ((k, v) :: props).
Proof.
  intros Hfresh. unfold V8.Object_Set.
  apply Object_Has_false in Hfresh. rewrite Hfresh.
  destruct (V8.array_index k) as [i |].
  - apply Object_add_indexed_perm.
  - symmetry. apply Permutation_cons_append.
Qed.

(** A [Set] under a new name that is no array index adds the property at
    the end. *)
Lemma Object_Set_fresh (props : list (jsstring * v8value)) (k : jsstring) (v : v8value) :
  ~ In k (map fst props) -> V8.array_index k = None ->
  V8.Object_Set props k v = props ++ [(k, v)].
Proof.
  intros Hfresh Hname. unfold V8.Object_Set.
  apply Object_Has_false in Hfresh. now rewrite Hfresh, Hname.
Qed.

Lemma Object_Set_NoDup (props : list (jsstring * v8value)) (k : jsstring) (v : v8value) :
  NoDup (map fst props) -> NoDup (map fst (V8.Object_Set props k v)).
Proof.
  intros Hnd. destruct (V8.Object_Has props k) eqn:Hhas.
  - unfold V8.Object_Set. rewrite Hhas. now rewrite Object_replace_keys.
  - apply Object_Has_false in Hhas.
    apply (Permutation_NoDup (l := k :: map fst props)).
    + change (k :: map fst props) with (map fst ((k, v) :: props)).
      apply Permutation_map. symmetry. now apply Object_Set_fresh_perm.
    + now constructor.
Qed.

Lemma Object_Set_In (props : list (jsstring * v8value)) (k k' : jsstring) (v x : v8value) :
  In (k', x) (V8.Object_Set props k v) -> (k' = k /\ x = v) \/ In (k', x) props.
Proof.
  destruct (V8.Object_Has props k) eqn:Hhas.
  - unfold V8.Object_Set. rewrite Hhas. apply Object_replace_In.
  - apply Object_Has_false in Hhas. intros Hin.
    apply (Permutation_in _ (Object_Set_fresh_perm props k v Hhas)) in Hin.
    destruct Hin as [[= <- <-] | Hin]; [now left | now right].
Qed.

(** A run of [Set] calls under distinct names adds one property per call;
    where no name is an array index, the properties stand in the order of
    the calls. *)
Lemma Object_Set_fold_perm {A : Type} (name : A -> jsstring) (value : A -> v8value)
      (entries : list A) (obj : list (jsstring * v8value)) :
  NoDup (map fst obj ++ map name entries) ->
  Permutation (fold_left (fun o e => V8.Object_Set o (name e) (value e)) entries obj)
              (obj ++ map (fun e => (name e, value e)) entries).
Proof.
  revert obj. induction entries as [| e entries IH]; intros obj Hnd; cbn [fold_left map].
  - now rewrite app_nil_r.
  - cbn [map] in Hnd.
    assert (Hfresh : ~ In (name e) (map fst obj)).
    { apply NoDup_remove_2 in Hnd. intros Hin. apply Hnd, in_or_app. now left. }
    pose proof (Object_Set_fresh_perm obj (name e) (value e) Hfresh) as Hstep.
    rewrite IH.
    + rewrite Hstep. now apply Permutation_middle.
    + apply (Permutation_NoDup (l := name e :: map fst obj ++ map name entries)).
      * change (name e :: map fst obj ++ map name entries)
          with (map fst ((name e, value e) :: obj) ++ map name entries).
        apply Permutation_app_tail, Permutation_map. now symmetry.
      * apply (Permutation_NoDup (l := map fst obj ++ name e :: map name entries));
          [symmetry; apply Permutation_middle | exact Hnd].
Qed.

Lemma Object_Set_fold_distinct {A : Type} (name : A -> jsstring) (value : A -> v8value)
      (entries : list A) (obj : list (jsstring * v8value)) :
  NoDup (map fst obj ++ map name entries) ->
  (forall e, In e entries -> V8.array_index (name e) = None) ->
  fold_left (fun o e => V8.Object_Set o (name e) (value e)) entries obj
  = obj ++ map (fun e => (name e, value e)) entries.
Proof.
  revert obj. induction entries as [| e entries IH]; intros obj Hnd Hnames;
    cbn [fold_left map].
  - now rewrite app_nil_r.
  - cbn [map] in Hnd.
    assert (Hfresh : ~ In (name e) (map fst obj)).
    { apply NoDup_remove_2 in Hnd. intros Hin. apply Hnd, in_or_app. now left. }
    rewrite Object_Set_fresh by (try exact Hfresh; apply Hnames; now left).
    rewrite IH.
    + now rewrite <- app_assoc.
    + rewrite map_app. cbn [map fst]. rewrite <- app_assoc. exact Hnd.
    + intros e' He'. apply Hnames. now right.
Qed.

(** Whatever the names, the object built by a run of [Set] calls has
    distinct names, and each of its properties is that of a call. *)
Lemma Object_Set_fold_NoDup {A : Type} (name : A -> jsstring) (value : A -> v8value)
      (entries : list A) (obj : list (jsstring * v8value)) :
  NoDup (map fst obj) ->
  NoDup (map fst (fold_left (fun o e => V8.Object_Set o (name e) (value e)) entries obj)).
Proof.
  revert obj. induction entries as [| e entries IH]; intros obj Hnd; cbn [fold_left].
  - exact Hnd.
  - apply IH. now apply Object_Set_NoDup.
Qed.

Lemma Object_Set_fold_In {A : Type} (name : A -> jsstring) (value : A -> v8value)
      (entries : list A) (obj : list (jsstring * v8value)) (k : jsstring) (x : v8value) :
  In (k, x) (fold_left (fun o e => V8.Object_Set o (name e) (value e)) entries obj) ->
  (exists e, In e entries /\ k = name e /\ x = value e) \/ In (k, x) obj.
Proof.
  revert obj. induction entries as [| e entries IH]; intros obj; cbn [fold_left].
  - now right.
  - intros Hin. destruct (IH _ Hin) as [[e' [He' Hkx]] | Hobj].
    + left. exists e'. split; [now right | exact Hkx].
    + destruct (Object_Set_In _ _ _ _ _ Hobj) as [[-> ->] | Hobj'].
      * left. exists e. split; [now left | split; reflexivity].
      * now right.
Qed.

(** ** Structural equality, case by case *)

Lemma structurally_equal_array (xs ys : list v8value) :
  Forall2 (fun x y => structurally_equal x y = true) xs ys ->
  structurally_equal (V8Array xs) (V8Array ys) = true.
Proof.
  induction 1 as [| x y xs ys Hxy Hrest IH]; [reflexivity |].
  cbn [structurally_equal] in *. now rewrite Hxy, IH.
Qed.

Lemma structurally_equal_object (ps qs : list (jsstring * v8value)) :
  structurally_equal (V8Object ps) (V8Object qs)
  = (distinct (map fst ps) && (length ps =? length qs)%nat
     && forallb (fun kx => V8.Object_Has qs (fst kx)
                           && structurally_equal (snd kx) (V8.Object_Get qs (fst kx))) ps).
Proof.
  cbn [structurally_equal]. f_equal.
  induction ps as [| [k x] ps IH]; [reflexivity |].
  cbn [forallb fst snd]. now rewrite IH.
Qed.

Lemma structurally_equal_function (ps qs : list (jsstring * v8value)) :
  structurally_equal (V8Function ps) (V8Function qs)
  = (distinct (map fst ps) && (length ps =? length qs)%nat
     && forallb (fun kx => V8.Object_Has qs (fst kx)
                           && structurally_equal (snd kx) (V8.Object_Get qs (fst kx))) ps).
Proof.
  cbn [structurally_equal]. f_equal.
  induction ps as [| [k x] ps IH]; [reflexivity |].
  cbn [forallb fst snd]. now rewrite IH.
Qed.

(** An object whose names are distinct equals an object that holds, under
    the same names, values equal to its own. *)
Lemma NoDup_distinct (names : list jsstring) : NoDup names -> distinct names = true.
Proof.
  induction 1 as [| k names Hk Hnd IH]; [reflexivity |].
  cbn [distinct]. rewrite IH, andb_true_r. apply negb_true_iff.
  destruct (existsb (jsstring_eqb k) names) eqn:Hex; [| reflexivity].
  apply existsb_exists in Hex as [k' [Hin Heq]].
  apply jsstring_eqb_eq in Heq. subst k'. contradiction.
Qed.

Lemma structurally_equal_members (ps qs : list (jsstring * v8value)) :
  NoDup (map fst ps) ->
  length ps = length qs ->
  NoDup (map fst qs) ->
  (forall k x, In (k, x) ps ->
               exists y, In (k, y) qs /\ structurally_equal x y = true) ->
  structurally_equal (V8Object ps) (V8Object qs) = true.
Proof.
  intros Hps Hlen Hnd Hall.
  rewrite structurally_equal_object, (NoDup_distinct _ Hps), Hlen, Nat.eqb_refl.
  cbn [andb]. apply forallb_forall. intros [k x] Hin. cbn [fst snd].
  destruct (Hall k x Hin) as [y [Hy Hxy]].
  rewrite (Object_Get_In qs k y Hnd Hy), Hxy, andb_true_r.
  apply Object_Has_In. change k with (fst (k, y)). now apply in_map.
Qed.

(** ** [to_v8] and [from_v8], case by case *)

Lemma to_v8_JsObj (m_values : MemberMap) :
  to_v8 (JsObj m_values)
  = V8Object
      (fold_left
         (fun o e => V8.Object_Set o (V8String.New (V8String.c_str (fst e)) (-1))
                                   (to_v8 (snd e)))
         m_values []).
Proof. reflexivity. Qed.

Lemma from_v8_V8Object (props : list (jsstring * v8value)) :
  from_v8 (V8Object props)
  = JsObj
      (fold_left
         (fun m kv => StdMap.assign string_compare (V8String.AsciiValue (fst kv))
                                    (from_v8 (snd kv)) m)
         props []).
Proof. reflexivity. Qed.

Lemma from_v8_V8Function (props : list (jsstring * v8value)) :
  from_v8 (V8Function props) = from_v8 (V8Object props).
Proof. reflexivity. Qed.

(** The index loop of [JsArray::from_v8] visits the elements in order. *)
Lemma array_loop {A B : Type} (rec : A -> B) (d : A) (rest seen : list A) (acc : list B) :
  fold_left (fun m_vals i => m_vals ++ [rec (nth i (seen ++ rest) d)])
            (seq (length seen) (length rest)) acc
  = acc ++ map rec rest.
Proof.
  revert seen acc. induction rest as [| x rest IH]; intros seen acc.
  - cbn. now rewrite app_nil_r.
  - cbn [length seq fold_left map]. rewrite nth_middle.
    replace (seen ++ x :: rest) with ((seen ++ [x]) ++ rest)
      by (now rewrite <- app_assoc).
    replace (S (length seen)) with (length (seen ++ [x]))
      by (rewrite length_app; cbn [length]; lia).
    rewrite IH, <- app_assoc. reflexivity.
Qed.

Lemma JsArray_from_v8_loop (rec : v8value -> JsValue) (arr : list v8value) :
  JsArray_from_v8 rec arr = JsArray (map rec arr).
Proof.
  unfold JsArray_from_v8, V8.Array_Length, V8.Array_Get. rewrite Nat2Z.id.
  f_equal. exact (array_loop rec V8Undefined arr [] []).
Qed.

(** The name loop of [JsObj::from_v8] reads each property it names. *)
Lemma JsObj_from_v8_loop (rec : v8value -> JsValue) (o : list (jsstring * v8value)) :
  NoDup (map fst o) ->
  JsObj_from_v8 rec o
  = JsObj (fold_left
             (fun m kv => StdMap.assign string_compare (V8String.AsciiValue (fst kv))
                                        (rec (snd kv)) m)
             o []).
Proof.
  intros Hnd. unfold JsObj_from_v8, V8.GetPropertyNames. f_equal.
  assert (Hgen : forall (part : list (jsstring * v8value)) (acc : MemberMap),
             (forall k x, In (k, x) part -> In (k, x) o) ->
             fold_left
               (fun m k => StdMap.assign string_compare (V8String.AsciiValue k)
                                         (rec (V8.Object_Get o k)) m)
               (map fst part) acc
             = fold_left
                 (fun m kv => StdMap.assign string_compare (V8String.AsciiValue (fst kv))
                                            (rec (snd kv)) m)
                 part acc).
  { induction part as [| [k x] part IH]; intros acc Hsub; [reflexivity |].
    cbn [map fst snd fold_left].
    rewrite (Object_Get_In o k x Hnd) by (apply Hsub; now left).
    apply IH. intros k' x' Hin. apply Hsub. now right. }
  apply Hgen. trivial.
Qed.

(** [arr->Set(i, v)] inside the array replaces the i-th place. *)
Lemma Array_Set_middle (before after : list v8value) (old v : v8value) :
  V8.Array_Set (before ++ old :: after) (length before) v = before ++ v :: after.
Proof.
  induction before as [| x before IH]; [reflexivity |].
  cbn [length app V8.Array_Set]. now rewrite IH.
Qed.

(** The index loop of [JsArray::to_v8] fills the places in order. *)
Lemma JsArray_to_v8_loop (rec : JsValue -> v8value) (m_vals : list JsValue) :
  JsArray_to_v8 rec m_vals = V8Array (map rec m_vals).
Proof.
  unfold JsArray_to_v8. f_equal.
  assert (Hgen : forall rest seen,
             fold_left
               (fun out i => V8.Array_Set out i (rec (nth i (seen ++ rest) JsUndefined)))
               (seq (length seen) (length rest))
               (map rec seen ++ repeat V8Undefined (length rest))
             = map rec (seen ++ rest)).
  { induction rest as [| x rest IH]; intros seen.
    - cbn [length seq fold_left repeat]. now rewrite !app_nil_r.
    - cbn [length seq fold_left repeat]. rewrite nth_middle.
      rewrite <- (length_map rec seen) at 2. rewrite Array_Set_middle.
      replace (seen ++ x :: rest) with ((seen ++ [x]) ++ rest)
        by (now rewrite <- app_assoc).
      replace (S (length seen)) with (length (seen ++ [x]))
        by (rewrite length_app; cbn [length]; lia).
      replace (map rec seen ++ rec x :: repeat V8Undefined (length rest))
        with (map rec (seen ++ [x]) ++ repeat V8Undefined (length rest))
        by (rewrite map_app, <- app_assoc; reflexivity).
      apply IH. }
  exact (Hgen m_vals []).
Qed.

(** The tests of the C++ [from_v8], in the order they are made there. *)
Lemma from_v8_dispatch (v8obj : v8value) :
  from_v8 v8obj
  = if V8.IsNumber v8obj then
      match v8obj with
      | V8Number d =>
        if V8.IsInt32 v8obj then JsInt32_from_v8 d else JsNumber_from_v8 d
      | _ => JsUndefined
      end
    else if V8.IsString v8obj then
      match v8obj with V8String s => JsString_from_v8 s | _ => JsUndefined end
    else if V8.IsArray v8obj then
      match v8obj with
      | V8Array arr => JsArray_from_v8 from_v8 arr
      | _ => JsUndefined
      end
    else if V8.IsObject v8obj then
      match v8obj with
      | V8Object o | V8Function o => from_v8 (V8Object o)
      | _ => JsUndefined
      end
    else JsUndefined.
Proof.
  destruct v8obj as [| | b | d | s | elems | props | props]; try reflexivity.
  cbn [V8.IsNumber V8.IsString V8.IsArray from_v8].
  now rewrite JsArray_from_v8_loop.
Qed.

(** What [to_v8] builds is structurally equal to itself: the objects it
    builds have distinct property names. *)
Lemma to_v8_self_equal (j : JsValue) : structurally_equal (to_v8 j) (to_v8 j) = true.
Proof.
  induction j as [| b n | d | i | u | m_vals IH | m_values IH] using JsValue_induction.
  - reflexivity.
  - apply jsstring_eqb_refl.
  - apply Double_eqb_refl.
  - apply Z.eqb_refl.
  - apply Z.eqb_refl.
  - cbn [to_v8]. apply structurally_equal_array.
    induction IH as [| x m_vals Hx _ IHvals]; constructor; assumption.
  - rewrite to_v8_JsObj.
    apply structurally_equal_members; [| reflexivity | |].
    + apply Object_Set_fold_NoDup. constructor.
    + apply Object_Set_fold_NoDup. constructor.
    + intros k x Hin. exists x. split; [exact Hin |].
      apply Object_Set_fold_In in Hin as [[e [He [_ ->]]] | []].
      rewrite Forall_forall in IH. now apply IH.
Qed.





(** ** The store *)

(** [arr->Set(i, v)] at the end of the array appends. *)
Lemma Array_Set_end (arr : list v8value) (v : v8value) :
  V8.Array_Set arr (length arr) v = arr ++ [v].
Proof.
  induction arr as [| x arr IH]; [reflexivity |].
  cbn [length V8.Array_Set app]. now rewrite IH.
Qed.

Section Store.

Variable StringToNumber : jsstring -> double.
Variable ObjectToNumber : v8value -> double.

Local Abbreviation key_of := (IntegerValue StringToNumber ObjectToNumber).
Local Abbreviation store_set := (BypassStore_Set StringToNumber ObjectToNumber).
Local Abbreviation store_get := (BypassStore_Get StringToNumber ObjectToNumber).
Local Abbreviation store_del := (BypassStore_Del StringToNumber ObjectToNumber).
Local Abbreviation store_list := BypassStore_List.
Local Abbreviation store_run := (run StringToNumber ObjectToNumber).
Local Abbreviation lookup := (StdMap.find Z.compare).

(** The array [List] returns holds one number per entry, in iteration
    order: the key narrowed to 32 bits. *)
Lemma List_spec (args : Arguments) (m_cache : CacheMap) :
  store_list args m_cache
  = (Some (V8Array (map (fun entry => V8.Int32_New (Int.to_int32 (fst entry))) m_cache)),
     m_cache).
Proof.
  unfold BypassStore_List. do 3 f_equal.
  assert (Hgen : forall (m : CacheMap) (arr : list v8value),
             fst (fold_left
                    (fun (st : list v8value * nat) (entry : Z * JsValue) =>
                       let (arr, i) := st in
                       (V8.Array_Set arr i (V8.Int32_New (Int.to_int32 (fst entry))), S i))
                    m (arr, length arr))
             = arr ++ map (fun entry => V8.Int32_New (Int.to_int32 (fst entry))) m).
  { induction m as [| e m IH]; intros arr; cbn [fold_left map fst].
    - now rewrite app_nil_r.
    - rewrite Array_Set_end.
      replace (S (length arr))
        with (length (arr ++ [V8.Int32_New (Int.to_int32 (fst e))]))
        by (rewrite length_app; cbn [length]; lia).
      rewrite IH, <- app_assoc. reflexivity. }
  exact (Hgen m_cache []).
Qed.

Lemma Get_spec (key : v8value) (m_cache : CacheMap) :
  store_get [key] m_cache
  = (Some match lookup (key_of key) m_cache with
          | Some second => to_v8 second
          | None => V8Undefined
          end, m_cache).
Proof.
  unfold BypassStore_Get, arg. cbn [nth].
  now destruct (StdMap.find Z.compare (key_of key) m_cache).
Qed.

Lemma Get_store (args : Arguments) (m_cache : CacheMap) :
  snd (store_get args m_cache) = m_cache.
Proof.
  unfold BypassStore_Get.
  now destruct (StdMap.find Z.compare (key_of (arg args 0)) m_cache).
Qed.

(** Every store reached from a new one keeps its keys in ascending order. *)
Lemma invoke_ordered (c : call) (m_cache : CacheMap) :
  StdMap.ordered Z.compare m_cache ->
  StdMap.ordered Z.compare (snd (invoke StringToNumber ObjectToNumber c m_cache)).
Proof.
  intros Hm. destruct c as [args | args | args | args]; cbn [invoke].
  - now apply cache_ordered_assign.
  - now rewrite Get_store.
  - now apply cache_ordered_erase.
  - exact Hm.
Qed.

Lemma run_ordered (calls : list call) (m_cache : CacheMap) :
  StdMap.ordered Z.compare m_cache -> StdMap.ordered Z.compare (store_run calls m_cache).
Proof.
  revert m_cache. induction calls as [| c calls IH]; intros m Hm; cbn [run fold_left].
  - exact Hm.
  - apply IH. now apply invoke_ordered.
Qed.

(** A run that never sets key [k] leaves it absent if it was absent. *)
Lemma run_never_set (k : Z) (calls : list call) (m_cache : CacheMap) :
  forallb (fun c => negb (sets_key StringToNumber ObjectToNumber k c)) calls = true ->
  lookup k m_cache = None ->
  lookup k (store_run calls m_cache) = None.
Proof.
  revert m_cache. induction calls as [| c calls IH]; intros m Hcalls Hm;
    cbn [run fold_left]; [exact Hm |].
  cbn [forallb] in Hcalls. apply andb_true_iff in Hcalls as [Hc Hcalls].
  apply IH; [exact Hcalls |].
  destruct c as [args | args | args | args]; cbn [invoke sets_key] in *.
  - cbn [BypassStore_Set snd]. rewrite cache_find_assign_other; [exact Hm |].
    apply negb_true_iff, Z.eqb_neq in Hc. exact Hc.
  - now rewrite Get_store.
  - cbn [BypassStore_Del snd].
    destruct (Z.eq_dec (key_of (arg args 0)) k) as [-> | Hne].
    + apply cache_find_erase_same.
    + now rewrite cache_find_erase_other.
  - exact Hm.
Qed.

(** C2. Set/get coherence with overwrite: [get(k)] after [set(k, v)]
    returns [to_v8 (from_v8 v)] itself, which is structurally equal to
    decode(encode(v)); after [set(k, v1); set(k, v2)] it returns
    [to_v8 (from_v8 v2)], and the store is the very one that
    [set(k, v2)] alone leaves, so nothing of [v1] is left in it. *)
Theorem set_get_coherence (key v v1 v2 : v8value) (m_cache : CacheMap) :
  (fst (store_get [key] (snd (store_set [key; v] m_cache))) = Some (to_v8 (from_v8 v))
   /\ exists r, fst (store_get [key] (snd (store_set [key; v] m_cache))) = Some r
                /\ structurally_equal r (to_v8 (from_v8 v)) = true)
  /\ fst (store_get [key] (snd (store_set [key; v2] (snd (store_set [key; v1] m_cache)))))
     = Some (to_v8 (from_v8 v2))
  /\ snd (store_set [key; v2] (snd (store_set [key; v1] m_cache)))
     = snd (store_set [key; v2] m_cache).
Proof.
  assert (Hget : forall x m,
             fst (store_get [key] (snd (store_set [key; x] m))) = Some (to_v8 (from_v8 x))).
  { intros x m. rewrite Get_spec. unfold BypassStore_Set, arg. cbn [nth snd fst].
    now rewrite cache_find_assign_same. }
  repeat split.
  - apply Hget.
  - exists (to_v8 (from_v8 v)). split; [apply Hget | apply to_v8_self_equal].
  - apply Hget.
  - unfold BypassStore_Set, arg. cbn [nth snd]. apply cache_assign_assign.
Qed.

(** C4. Absent-key contract: [get(k)] returns [Undefined()] on a store in
    which no call ever set [k], and after [del(k)]; [del(k)] of an absent
    key leaves the store as it was and returns normally (with the empty
    handle every [del] returns). *)
Theorem absent_key_contract (key : v8value) (calls : list call) (m_cache : CacheMap) :
  (forallb (fun c => negb (sets_key StringToNumber ObjectToNumber (key_of key) c)) calls
   = true ->
   fst (store_get [key] (store_run calls BypassStore_New)) = Some V8Undefined)
  /\ fst (store_get [key] (snd (store_del [key] m_cache))) = Some V8Undefined
  /\ (lookup (key_of key) m_cache = None -> store_del [key] m_cache = (None, m_cache)).
Proof.
  repeat split.
  - intros Hcalls. rewrite Get_spec. cbn [fst].
    now rewrite (run_never_set (key_of key) calls BypassStore_New Hcalls).
  - rewrite Get_spec. unfold BypassStore_Del, arg. cbn [nth snd fst].
    now rewrite cache_find_erase_same.
  - intros Habsent. unfold BypassStore_Del, arg. cbn [nth].
    now rewrite cache_erase_absent.
Qed.

(** C10. Frame property: for keys [k <> k'], [set(k, v)] and [del(k)]
    leave the entry stored at [k'] (and so what [get(k')] returns) as it
    was, and [get] and [list] leave the whole store as it was. *)
Theorem frame_property (key key' v : v8value) (args : Arguments) (m_cache : CacheMap) :
  key_of key <> key_of key' ->
  lookup (key_of key') (snd (store_set [key; v] m_cache)) = lookup (key_of key') m_cache
  /\ lookup (key_of key') (snd (store_del [key] m_cache)) = lookup (key_of key') m_cache
  /\ fst (store_get [key'] (snd (store_set [key; v] m_cache))) = fst (store_get [key'] m_cache)
  /\ fst (store_get [key'] (snd (store_del [key] m_cache))) = fst (store_get [key'] m_cache)
  /\ snd (store_get args m_cache) = m_cache
  /\ snd (store_list args m_cache) = m_cache.
Proof.
  intros Hne.
  assert (Hset : lookup (key_of key') (snd (store_set [key; v] m_cache))
                 = lookup (key_of key') m_cache).
  { unfold BypassStore_Set, arg. cbn [nth snd]. now apply cache_find_assign_other. }
  assert (Hdel : lookup (key_of key') (snd (store_del [key] m_cache))
                 = lookup (key_of key') m_cache).
  { unfold BypassStore_Del, arg. cbn [nth snd]. now apply cache_find_erase_other. }
  repeat split.
  - exact Hset.
  - exact Hdel.
  - rewrite !Get_spec. cbn [fst]. now rewrite Hset.
  - rewrite !Get_spec. cbn [fst]. now rewrite Hdel.
  - apply Get_store.
Qed.

(** Where every key fits 32 bits, [list()] returns the keys themselves. *)
Lemma list_keys_within_int32 (args : Arguments) (m_cache : CacheMap) :
  Forall (fun k => Int.in_int32 k = true) (StdMap.keys m_cache) ->
  fst (store_list args m_cache)
  = Some (V8Array (map (fun k => V8Number (DInt k)) (StdMap.keys m_cache))).
Proof.
  intros Hkeys. rewrite List_spec. cbn [fst]. do 2 f_equal.
  unfold StdMap.keys in *. rewrite map_map. apply map_ext_in.
  intros e He. unfold V8.Int32_New. rewrite to_int32_id; [reflexivity |].
  rewrite Forall_forall in Hkeys. apply Hkeys. now apply in_map.
Qed.

(** The keys an iteration meets are the keys that have an entry. *)
Lemma keys_live (k : Z) (m_cache : CacheMap) :
  In k (StdMap.keys m_cache) <-> lookup k m_cache <> None.
Proof.
  symmetry. apply StdMapFacts.find_some_in_keys, Z.compare_eq_iff.
Qed.

(** C5. List completeness and order, at the input where the code departs
    from it: with a live entry under key 4294967296, [list()] returns
    [[0]]; with live entries under 1 and 2147483648 it returns
    [[1; -2147483648]], which is neither the keys nor ascending. *)
Theorem list_narrows_keys :
  (let m := snd (store_set [V8Number (DInt 4294967296); V8String [120]] BypassStore_New) in
   lookup 4294967296 m = Some (JsString [120] 1)
   /\ StdMap.keys m = [4294967296]
   /\ fst (store_list [] m) = Some (V8Array [V8Number (DInt 0)]))
  /\ (let m := store_run [CallSet [V8Number (DInt 2147483648); V8Null];
                          CallSet [V8Number (DInt 1); V8Null]] BypassStore_New in
      StdMap.keys m = [1; 2147483648]
      /\ fst (store_list [] m)
         = Some (V8Array [V8Number (DInt 1); V8Number (DInt (-2147483648))])).
Proof. repeat split. Qed.


(** C9, as amended.  Key coercion: a missing key argument reads as
    [undefined] and becomes key 0, so [set] without arguments stores under
    key 0 and [get] and [del] without arguments address key 0; [null] and
    [false] become key 0 too, and so does every key that is not a number
    and whose conversion to a number gives NaN.  A key that is not a number
    but converts to one becomes that number truncated: [true] is key 1. *)
Theorem key_coercion (key val : v8value) (m_cache : CacheMap) :
  (key_of (arg [] 0) = 0
   /\ store_set [] m_cache = (None, StdMap.assign Z.compare 0 JsUndefined m_cache)
   /\ store_get [] m_cache = store_get [V8Number (DInt 0)] m_cache
   /\ store_del [] m_cache = store_del [V8Number (DInt 0)] m_cache)
  /\ (key_of V8Undefined = 0 /\ key_of V8Null = 0 /\ key_of (V8Boolean false) = 0)
  /\ (key_of (V8Boolean true) = 1
      /\ store_set [V8Boolean true; val] m_cache
         = store_set [V8Number (DInt 1); val] m_cache)
  /\ (V8.IsNumber key = false ->
      key_of key
      = Double.static_cast_int64
          (Double.ToInteger (ToNumber StringToNumber ObjectToNumber key)))
  /\ (V8.IsNumber key = false ->
      ToNumber StringToNumber ObjectToNumber key = DNaN ->
      key_of key = 0
      /\ store_set [key; val] m_cache = store_set [V8Number (DInt 0); val] m_cache
      /\ store_get [key] m_cache = store_get [V8Number (DInt 0)] m_cache
      /\ store_del [key] m_cache = store_del [V8Number (DInt 0)] m_cache).
Proof.
  split; [repeat split |]. split; [repeat split |]. split; [repeat split |].
  split.
  - intros Hkey. unfold IntegerValue. now rewrite Hkey.
  - intros Hkey Hnan.
    assert (H0 : key_of key = 0).
    { unfold IntegerValue. now rewrite Hkey, Hnan. }
    split; [exact H0 |].
    unfold BypassStore_Set, BypassStore_Get, BypassStore_Del, arg. cbn [nth].
    rewrite H0. repeat split.
Qed.

End Store.

(** ** Encoding *)

Lemma existsb_none {A : Type} (f : A -> bool) (l : list A) :
  (forall x, In x l -> f x = false) -> existsb f l = false.
Proof.
  induction l as [| a l IH]; intros Hall; [reflexivity |].
  cbn [existsb]. rewrite (Hall a (or_introl eq_refl)). apply IH.
  intros x Hx. apply Hall. now right.
Qed.


(** The entries of the member map [JsObj::from_v8] builds. *)
Lemma from_v8_members (props : list (jsstring * v8value)) (k : bytes) (x : JsValue) :
  In (k, x)
     (fold_left
        (fun m kv => StdMap.assign string_compare (V8String.AsciiValue (fst kv))
                                   (from_v8 (snd kv)) m)
        props []) ->
  exists kv, In kv props /\ k = V8String.AsciiValue (fst kv) /\ x = from_v8 (snd kv).
Proof.
  intros Hin.
  apply (StdMapFacts.loop_In string_compare string_compare_eq
           (fun kv => V8String.AsciiValue (fst kv)) (fun kv => from_v8 (snd kv)))
    in Hin as [Hex | []].
  exact Hex.
Qed.

Lemma from_v8_members_ordered (props : list (jsstring * v8value)) :
  StdMap.ordered string_compare
    (fold_left
       (fun m kv => StdMap.assign string_compare (V8String.AsciiValue (fst kv))
                                  (from_v8 (snd kv)) m)
       props []).
Proof.
  apply (StdMapFacts.loop_ordered string_compare string_compare_eq
           string_compare_antisym string_compare_trans
           (fun kv => V8String.AsciiValue (fst kv)) (fun kv => from_v8 (snd kv))).
  constructor.
Qed.

(** With distinct ASCII names, the member map holds the properties of the
    object, each under its own name, and [to_v8] builds an object with
    those names and the decoded values; where no name is an array index its
    properties stand in the order of the map. *)
Lemma from_v8_members_ascii (props : list (jsstring * v8value)) :
  NoDup (map fst props) ->
  forallb ascii_name (map fst props) = true ->
  forall m_values, from_v8 (V8Object props) = JsObj m_values ->
  Permutation m_values (map (fun kv => (fst kv, from_v8 (snd kv))) props)
  /\ exists decoded,
      to_v8 (JsObj m_values) = V8Object decoded
      /\ Permutation decoded (map (fun e => (fst e, to_v8 (snd e))) m_values)
      /\ ((forall k, In k (map fst props) -> V8.array_index k = None) ->
          decoded = map (fun e => (fst e, to_v8 (snd e))) m_values).
Proof.
  intros Hnd Hascii m_values Hm. rewrite from_v8_V8Object in Hm.
  injection Hm as Hm.
  assert (Hnames : forall kv, In kv props -> V8String.AsciiValue (fst kv) = fst kv).
  { intros kv Hkv. apply AsciiValue_ascii.
    rewrite forallb_forall in Hascii. apply Hascii. now apply in_map. }
  assert (Hperm : Permutation m_values (map (fun kv => (fst kv, from_v8 (snd kv))) props)).
  { rewrite <- Hm.
    rewrite (StdMapFacts.loop_perm string_compare string_compare_eq
               (fun kv => V8String.AsciiValue (fst kv)) (fun kv => from_v8 (snd kv))).
    - cbn [app]. apply Permutation_refl'. apply map_ext_in.
      intros kv Hkv. now rewrite Hnames.
    - cbn [StdMap.keys map app].
      rewrite (map_ext_in _ fst) by exact Hnames. exact Hnd. }
  split; [exact Hperm |].
  assert (Hsource : forall e, In e m_values -> In (fst e) (map fst props)).
  { intros e He. apply (Permutation_in _ Hperm) in He.
    apply in_map_iff in He as [kv [<- Hkv]]. cbn [fst]. now apply in_map. }
  assert (Hkeys : forall e, In e m_values ->
                            V8String.New (V8String.c_str (fst e)) (-1) = fst e).
  { intros e He. apply String_New_c_str_ascii.
    rewrite forallb_forall in Hascii. now apply Hascii, Hsource. }
  assert (Hdistinct : NoDup (map fst (@nil (jsstring * v8value))
                             ++ map (fun e : bytes * JsValue =>
                                       V8String.New (V8String.c_str (fst e)) (-1))
                                    m_values)).
  { cbn [map app]. rewrite (map_ext_in _ fst) by exact Hkeys.
    apply members_ordered_NoDup. rewrite <- Hm. apply from_v8_members_ordered. }
  assert (Hmap : map (fun e : bytes * JsValue =>
                        (V8String.New (V8String.c_str (fst e)) (-1), to_v8 (snd e)))
                     m_values
                 = map (fun e => (fst e, to_v8 (snd e))) m_values).
  { apply map_ext_in. intros e He. now rewrite Hkeys. }
  eexists. split; [apply to_v8_JsObj |]. split.
  - rewrite (Object_Set_fold_perm
               (fun e => V8String.New (V8String.c_str (fst e)) (-1))
               (fun e => to_v8 (snd e)) m_values [] Hdistinct).
    cbn [app]. now rewrite Hmap.
  - intros Hplain.
    rewrite (Object_Set_fold_distinct
               (fun e => V8String.New (V8String.c_str (fst e)) (-1))
               (fun e => to_v8 (snd e)) m_values [] Hdistinct).
    + exact Hmap.
    + intros e He. rewrite Hkeys by exact He. now apply Hplain, Hsource.
Qed.

(** C8. Dead Uint32 variant: no tree that [from_v8] builds has a
    [JsUint32] node anywhere in it. *)
Theorem no_uint32_node (v : v8value) : has_uint32 (from_v8 v) = false.
Proof.
  induction v as [| | b | d | s | elems IH | props IH | props IH] using v8value_induction;
    try reflexivity.
  - cbn [from_v8]. now destruct (V8.IsInt32 (V8Number d)).
  - cbn [from_v8 has_uint32]. apply existsb_none. intros x Hx.
    apply in_map_iff in Hx as [y [<- Hy]]. rewrite Forall_forall in IH. now apply IH.
  - rewrite from_v8_V8Object. cbn [has_uint32].
    apply existsb_none. intros [k x] Hin. cbn [snd].
    apply from_v8_members in Hin as [kv [Hkv [_ ->]]].
    rewrite Forall_forall in IH. now apply IH.
  - rewrite from_v8_V8Function, from_v8_V8Object. cbn [has_uint32].
    apply existsb_none. intros [k x] Hin. cbn [snd].
    apply from_v8_members in Hin as [kv [Hkv [_ ->]]].
    rewrite Forall_forall in IH. now apply IH.
Qed.

(** C3, as amended.  Encode classification, first match wins: a number
    that is a signed 32-bit integer becomes a [JsInt32] of that integer,
    any other number a [JsNumber] of the same double; a string a
    [JsString] of its UTF-8 bytes and their count; an array a [JsArray] of
    its elements encoded in index order; any other object, a function
    included, a [JsObj]; [undefined] (which is also what a missing argument
    reads as), [null] and the booleans a [JsUndefined].  [from_v8] is a
    total function: there is no input on which it fails. *)
Theorem encode_classification :
  (forall z, Int.in_int32 z = true -> from_v8 (V8Number (DInt z)) = JsInt32 z)
  /\ (forall d, V8.IsInt32 (V8Number d) = false -> from_v8 (V8Number d) = JsNumber d)
  /\ (forall d, V8.IsInt32 (V8Number d) = true <->
                exists z, d = DInt z /\ - 2147483648 <= z <= 2147483647)
  /\ (forall s, from_v8 (V8String s)
                = JsString (Utf8.encode s) (Z.of_nat (length (Utf8.encode s))))
  /\ (forall elems, from_v8 (V8Array elems) = JsArray (map from_v8 elems))
  /\ (forall props, exists m_values,
         from_v8 (V8Object props) = JsObj m_values
         /\ from_v8 (V8Function props) = JsObj m_values)
  /\ from_v8 V8Undefined = JsUndefined
  /\ from_v8 (arg [] 1) = JsUndefined
  /\ from_v8 V8Null = JsUndefined
  /\ (forall b, from_v8 (V8Boolean b) = JsUndefined).
Proof.
  split.
  { intros z Hz. cbn [from_v8 V8.IsInt32]. rewrite Hz.
    unfold JsInt32_from_v8, V8.Int32Value, Double.ToInt32. cbn [Double.trunc].
    now rewrite to_int32_id. }
  split.
  { intros d Hd. cbn [from_v8]. now rewrite Hd. }
  split.
  { intros d. cbn [V8.IsInt32]. split.
    - destruct d as [z | | | |]; try discriminate.
      intros Hz. exists z. split; [reflexivity | now apply in_int32_bounds].
    - intros [z [-> Hz]]. now apply in_int32_bounds. }
  split.
  { intros s. cbn [from_v8]. apply JsString_from_v8_spec. }
  split; [reflexivity |].
  split.
  { intros props. eexists. split; reflexivity. }
  repeat split.
Qed.


(** ** Round trip *)






(** ** The properties at concrete inputs *)



(** C3 as first stated fails on a function: [IsObject()] holds for it, so
    it is encoded as a [JsObj]. *)
Lemma function_encodes_to_object :
  V8.IsObject (V8Function []) = true
  /\ from_v8 (V8Function []) = JsObj []
  /\ from_v8 (V8Function []) <> JsUndefined.
Proof. repeat split. discriminate. Qed.

(** [encode_classification] at 7 and at 1/2. *)
Lemma encode_classification_witness :
  (Int.in_int32 7 = true /\ from_v8 (V8Number (DInt 7)) = JsInt32 7)
  /\ (V8.IsInt32 (V8Number (DFrac 1 1)) = false
      /\ from_v8 (V8Number (DFrac 1 1)) = JsNumber (DFrac 1 1)).
Proof.
  destruct encode_classification as [Hint [Hnumber _]].
  split; (split; [reflexivity |]).
  - apply Hint. reflexivity.
  - apply Hnumber. reflexivity.
Defined.



(** C9 as first stated fails on the key [true], which is not a number and
    becomes key 1: the entry is stored under 1 and nothing under 0. *)
Lemma key_coercion_counterexample :
  V8.IsNumber (V8Boolean true) = false
  /\ IntegerValue (fun _ => DNaN) (fun _ => DNaN) (V8Boolean true) = 1
  /\ snd (BypassStore_Set (fun _ => DNaN) (fun _ => DNaN)
                          [V8Boolean true; V8String [120]] BypassStore_New)
     = [(1, JsString [120] 1)]
  /\ StdMap.find Z.compare 0
       (snd (BypassStore_Set (fun _ => DNaN) (fun _ => DNaN)
                             [V8Boolean true; V8String [120]] BypassStore_New))
     = None.
Proof. repeat split. Qed.

(** [key_coercion] at the key "abc", with a string conversion that gives
    NaN for it. *)
Lemma key_coercion_witness :
  V8.IsNumber (V8String [97; 98; 99]) = false
  /\ ToNumber (fun _ => DNaN) (fun _ => DNaN) (V8String [97; 98; 99]) = DNaN
  /\ IntegerValue (fun _ => DNaN) (fun _ => DNaN) (V8String [97; 98; 99])
     = Double.static_cast_int64
         (Double.ToInteger
            (ToNumber (fun _ => DNaN) (fun _ => DNaN) (V8String [97; 98; 99])))
  /\ IntegerValue (fun _ => DNaN) (fun _ => DNaN) (V8String [97; 98; 99]) = 0
  /\ BypassStore_Set (fun _ => DNaN) (fun _ => DNaN)
                     [V8String [97; 98; 99]; V8Null] BypassStore_New
     = BypassStore_Set (fun _ => DNaN) (fun _ => DNaN)
                       [V8Number (DInt 0); V8Null] BypassStore_New.
Proof.
  destruct (key_coercion (fun _ => DNaN) (fun _ => DNaN)
                         (V8String [97; 98; 99]) V8Null BypassStore_New)
    as [_ [_ [_ [Hconv Hnan]]]].
  destruct (Hnan eq_refl eq_refl) as [Hkey [Hset _]].
  split; [reflexivity |]. split; [reflexivity |].
  split; [exact (Hconv eq_refl) |].
  split; [exact Hkey | exact Hset].
Defined.

(** [absent_key_contract] at key 5, after [set(1, "x"); del(1); list()],
    and on a store that holds key 1 only. *)
Lemma absent_key_contract_witness :
  (forallb (fun c => negb (sets_key (fun _ => DNaN) (fun _ => DNaN)
                                    (IntegerValue (fun _ => DNaN) (fun _ => DNaN)
                                                  (V8Number (DInt 5))) c))
           [CallSet [V8Number (DInt 1); V8String [120]]; CallDel [V8Number (DInt 1)];
            CallList []] = true
   /\ fst (BypassStore_Get (fun _ => DNaN) (fun _ => DNaN) [V8Number (DInt 5)]
             (run (fun _ => DNaN) (fun _ => DNaN)
                  [CallSet [V8Number (DInt 1); V8String [120]];
                   CallDel [V8Number (DInt 1)]; CallList []] BypassStore_New))
      = Some V8Undefined)
  /\ (StdMap.find Z.compare 5 [(1, JsInt32 3)] = None
      /\ BypassStore_Del (fun _ => DNaN) (fun _ => DNaN) [V8Number (DInt 5)]
                         [(1, JsInt32 3)]
         = (None, [(1, JsInt32 3)])).
Proof.
  destruct (absent_key_contract (fun _ => DNaN) (fun _ => DNaN) (V8Number (DInt 5))
              [CallSet [V8Number (DInt 1); V8String [120]]; CallDel [V8Number (DInt 1)];
               CallList []] [(1, JsInt32 3)])
    as [Hnever [_ Hdel]].
  split.
  - split; [reflexivity | apply Hnever; reflexivity].
  - split; [reflexivity | apply Hdel; reflexivity].
Defined.

(** [frame_property] at the keys 1 and 2 of a store that holds both. *)
Lemma frame_property_witness :
  IntegerValue (fun _ => DNaN) (fun _ => DNaN) (V8Number (DInt 1))
  <> IntegerValue (fun _ => DNaN) (fun _ => DNaN) (V8Number (DInt 2))
  /\ StdMap.find Z.compare 2
       (snd (BypassStore_Set (fun _ => DNaN) (fun _ => DNaN)
                             [V8Number (DInt 1); V8Null] [(1, JsInt32 3); (2, JsInt32 4)]))
     = Some (JsInt32 4)
  /\ StdMap.find Z.compare 2
       (snd (BypassStore_Del (fun _ => DNaN) (fun _ => DNaN)
                             [V8Number (DInt 1)] [(1, JsInt32 3); (2, JsInt32 4)]))
     = Some (JsInt32 4).
Proof.
  assert (Hne : IntegerValue (fun _ => DNaN) (fun _ => DNaN) (V8Number (DInt 1))
                <> IntegerValue (fun _ => DNaN) (fun _ => DNaN) (V8Number (DInt 2))).
  { discriminate. }
  split; [exact Hne |].
  destruct (frame_property (fun _ => DNaN) (fun _ => DNaN)
                           (V8Number (DInt 1)) (V8Number (DInt 2)) V8Null []
                           [(1, JsInt32 3); (2, JsInt32 4)] Hne)
    as [Hset [Hdel _]].
  split; [exact Hset | exact Hdel].
Defined.

(** * Further properties *)

(** ** Ordered maps: lookups decide the map *)

Module StdMapOrder.

Section Order.

Context {K V : Type} (cmp : K -> K -> comparison).

Hypothesis cmp_eq : forall a b, cmp a b = Eq <-> a = b.
Hypothesis cmp_antisym : forall a b, cmp b a = CompOpp (cmp a b).
Hypothesis cmp_trans : forall a b c, cmp a b = Lt -> cmp b c = Lt -> cmp a c = Lt.

Local Abbreviation assign := (StdMap.assign cmp).
Local Abbreviation find := (StdMap.find cmp).
Local Abbreviation erase := (StdMap.erase cmp).
Local Abbreviation keys := (@StdMap.keys K V).
Local Abbreviation ordered := (@StdMap.ordered K V cmp).

Lemma ordered_tail (e : K * V) (m : list (K * V)) : ordered (e :: m) -> ordered m.
Proof. unfold StdMap.ordered. cbn [StdMap.keys map]. now inversion 1. Qed.

Lemma ordered_head_lt (k' : K) (v' : V) (m : list (K * V)) (k : K) :
  ordered ((k', v') :: m) -> In k (keys m) -> cmp k' k = Lt.
Proof.
  unfold StdMap.ordered. cbn [StdMap.keys map fst]. inversion 1 as [| ? ? _ Hall]; subst.
  rewrite Forall_forall in Hall. apply Hall.
Qed.

(** A key below the first key of the map is not in it. *)
Lemma find_below (k k' : K) (v' : V) (m : list (K * V)) :
  ordered ((k', v') :: m) -> cmp k k' = Lt -> find k ((k', v') :: m) = None.
Proof.
  intros Hm Hlt.
  destruct (find k ((k', v') :: m)) eqn:Hfind; [| reflexivity].
  assert (Hin : In k (keys ((k', v') :: m))).
  { apply (StdMapFacts.find_some_in_keys cmp cmp_eq). congruence. }
  cbn [StdMap.keys map fst In] in Hin. destruct Hin as [-> | Hin].
  - rewrite (StdMapFacts.cmp_refl cmp cmp_eq) in Hlt. discriminate.
  - pose proof (ordered_head_lt _ _ _ _ Hm Hin) as Hgt.
    pose proof (cmp_trans _ _ _ Hlt Hgt) as Hkk.
    rewrite (StdMapFacts.cmp_refl cmp cmp_eq) in Hkk. discriminate.
Qed.

Lemma find_tail_head (k' : K) (v' : V) (m : list (K * V)) :
  ordered ((k', v') :: m) -> find k' m = None.
Proof.
  intros Hm. destruct (find k' m) eqn:Hfind; [| reflexivity].
  assert (Hin : In k' (keys m)).
  { apply (StdMapFacts.find_some_in_keys cmp cmp_eq). congruence. }
  pose proof (ordered_head_lt _ _ _ _ Hm Hin) as Hlt.
  rewrite (StdMapFacts.cmp_refl cmp cmp_eq) in Hlt. discriminate.
Qed.

(** Two ordered maps with the same lookups are the same map. *)
Lemma ordered_ext (m1 m2 : list (K * V)) :
  ordered m1 -> ordered m2 -> (forall k, find k m1 = find k m2) -> m1 = m2.
Proof.
  revert m2. induction m1 as [| [k1 v1] m1 IH]; intros [| [k2 v2] m2] H1 H2 Hfind.
  - reflexivity.
  - specialize (Hfind k2). cbn [StdMap.find] in Hfind.
    rewrite (StdMapFacts.cmp_refl cmp cmp_eq) in Hfind. discriminate.
  - specialize (Hfind k1). cbn [StdMap.find] in Hfind.
    rewrite (StdMapFacts.cmp_refl cmp cmp_eq) in Hfind. discriminate.
  - assert (Hk : k1 = k2).
    { destruct (cmp k1 k2) eqn:Hc.
      - now apply cmp_eq.
      - pose proof (Hfind k1) as Hf. rewrite (find_below k1 k2 v2 m2 H2 Hc) in Hf.
        cbn [StdMap.find] in Hf. rewrite (StdMapFacts.cmp_refl cmp cmp_eq) in Hf.
        discriminate.
      - apply (StdMapFacts.cmp_gt_lt cmp cmp_antisym) in Hc.
        pose proof (Hfind k2) as Hf. rewrite (find_below k2 k1 v1 m1 H1 Hc) in Hf.
        cbn [StdMap.find] in Hf. rewrite (StdMapFacts.cmp_refl cmp cmp_eq) in Hf.
        discriminate. }
    subst k2.
    assert (Hv : v1 = v2).
    { specialize (Hfind k1). cbn [StdMap.find] in Hfind.
      rewrite (StdMapFacts.cmp_refl cmp cmp_eq) in Hfind. congruence. }
    subst v2. f_equal.
    apply IH; [now apply ordered_tail in H1 | now apply ordered_tail in H2 |].
    intros k. destruct (cmp k k1) eqn:Hc.
    + apply cmp_eq in Hc. subst k.
      now rewrite (find_tail_head _ _ _ H1), (find_tail_head _ _ _ H2).
    + specialize (Hfind k). cbn [StdMap.find] in Hfind. now rewrite Hc in Hfind.
    + specialize (Hfind k). cbn [StdMap.find] in Hfind. now rewrite Hc in Hfind.
Qed.

(** In an ordered map the entries are what the lookups find. *)
Lemma find_iff_In (k : K) (v : V) (m : list (K * V)) :
  ordered m -> (find k m = Some v <-> In (k, v) m).
Proof.
  intros Hm. split; [apply (StdMapFacts.find_in cmp cmp_eq) |].
  induction m as [| [k' v'] m IH]; cbn [In StdMap.find]; [tauto |].
  intros [[= -> ->] | Hin].
  - now rewrite (StdMapFacts.cmp_refl cmp cmp_eq).
  - assert (Hk : In k (keys m)).
    { change k with (fst (k, v)). unfold StdMap.keys. now apply in_map. }
    pose proof (ordered_head_lt _ _ _ _ Hm Hk) as Hlt.
    rewrite cmp_antisym, Hlt. cbn [CompOpp].
    apply IH; [now apply ordered_tail in Hm | exact Hin].
Qed.


Lemma erase_assign (k : K) (v : V) (m : list (K * V)) :
  erase k (assign k v m) = erase k m.
Proof.
  induction m as [| [k' v'] m IH]; cbn [StdMap.assign StdMap.erase].
  - now rewrite (StdMapFacts.cmp_refl cmp cmp_eq).
  - destruct (cmp k k') eqn:Hc; cbn [StdMap.erase].
    + now rewrite Hc.
    + now rewrite (StdMapFacts.cmp_refl cmp cmp_eq), Hc.
    + now rewrite Hc, IH.
Qed.

Lemma erase_erase (k : K) (m : list (K * V)) : erase k (erase k m) = erase k m.
Proof.
  apply (StdMapFacts.erase_absent cmp), (StdMapFacts.find_erase_same cmp).
Qed.

(** The number of entries after an assignment and after an erasure. *)
Lemma length_assign (k : K) (v : V) (m : list (K * V)) :
  ordered m ->
  length (assign k v m)
  = match find k m with Some _ => length m | None => S (length m) end.
Proof.
  induction m as [| [k' v'] m IH]; intros Hm; [reflexivity |].
  cbn [StdMap.assign]. destruct (cmp k k') eqn:Hc.
  - cbn [StdMap.find]. now rewrite Hc.
  - now rewrite (find_below k k' v' m Hm Hc).
  - cbn [StdMap.find length]. rewrite Hc, IH by (now apply ordered_tail in Hm).
    now destruct (find k m).
Qed.

Lemma length_erase (k : K) (m : list (K * V)) :
  ordered m ->
  length (erase k m)
  = match find k m with Some _ => pred (length m) | None => length m end.
Proof.
  induction m as [| [k' v'] m IH]; intros Hm; [reflexivity |].
  cbn [StdMap.erase StdMap.find]. destruct (cmp k k') eqn:Hc.
  - apply cmp_eq in Hc. subst k'.
    rewrite (StdMapFacts.erase_absent cmp) by (now apply (find_tail_head _ _ _ Hm)).
    reflexivity.
  - assert (Hf : find k m = None).
    { pose proof (find_below k k' v' m Hm Hc) as Hf.
      cbn [StdMap.find] in Hf. now rewrite Hc in Hf. }
    now rewrite (StdMapFacts.erase_absent cmp) by exact Hf; rewrite Hf.
  - cbn [length]. rewrite IH by (now apply ordered_tail in Hm).
    destruct (find k m) eqn:Hf; [| reflexivity].
    destruct m; [discriminate | reflexivity].
Qed.

(** Assignments under different keys can be made in either order. *)
Lemma assign_comm (k1 k2 : K) (v1 v2 : V) (m : list (K * V)) :
  k1 <> k2 -> ordered m ->
  assign k1 v1 (assign k2 v2 m) = assign k2 v2 (assign k1 v1 m).
Proof.
  intros Hne Hm.
  apply ordered_ext;
    try (repeat apply (StdMapFacts.ordered_assign cmp cmp_eq cmp_antisym cmp_trans);
         exact Hm).
  intros k.
  destruct (cmp k k1) eqn:H1; [apply cmp_eq in H1; subst k | |].
  - rewrite (StdMapFacts.find_assign_same cmp cmp_eq).
    rewrite (StdMapFacts.find_assign_other cmp cmp_eq) by congruence.
    now rewrite (StdMapFacts.find_assign_same cmp cmp_eq).
  - assert (Hk1 : k1 <> k) by (intros ->; rewrite (StdMapFacts.cmp_refl cmp cmp_eq) in H1;
                               discriminate).
    rewrite (StdMapFacts.find_assign_other cmp cmp_eq) by exact Hk1.
    destruct (cmp k k2) eqn:H2; [apply cmp_eq in H2; subst k | |].
    + now rewrite !(StdMapFacts.find_assign_same cmp cmp_eq).
    + assert (Hk2 : k2 <> k)
        by (intros ->; rewrite (StdMapFacts.cmp_refl cmp cmp_eq) in H2; discriminate).
      now rewrite !(StdMapFacts.find_assign_other cmp cmp_eq) by assumption.
    + assert (Hk2 : k2 <> k)
        by (intros ->; rewrite (StdMapFacts.cmp_refl cmp cmp_eq) in H2; discriminate).
      now rewrite !(StdMapFacts.find_assign_other cmp cmp_eq) by assumption.
  - assert (Hk1 : k1 <> k) by (intros ->; rewrite (StdMapFacts.cmp_refl cmp cmp_eq) in H1;
                               discriminate).
    rewrite (StdMapFacts.find_assign_other cmp cmp_eq) by exact Hk1.
    destruct (cmp k k2) eqn:H2; [apply cmp_eq in H2; subst k | |].
    + now rewrite !(StdMapFacts.find_assign_same cmp cmp_eq).
    + assert (Hk2 : k2 <> k)
        by (intros ->; rewrite (StdMapFacts.cmp_refl cmp cmp_eq) in H2; discriminate).
      now rewrite !(StdMapFacts.find_assign_other cmp cmp_eq) by assumption.
    + assert (Hk2 : k2 <> k)
        by (intros ->; rewrite (StdMapFacts.cmp_refl cmp cmp_eq) in H2; discriminate).
      now rewrite !(StdMapFacts.find_assign_other cmp cmp_eq) by assumption.
Qed.

Lemma erase_comm (k1 k2 : K) (m : list (K * V)) :
  erase k1 (erase k2 m) = erase k2 (erase k1 m).
Proof.
  induction m as [| [k' v'] m IH]; [reflexivity |].
  cbn [StdMap.erase].
  destruct (cmp k2 k') eqn:H2, (cmp k1 k') eqn:H1; cbn [StdMap.erase];
    rewrite ?H1, ?H2, ?IH; reflexivity.
Qed.

(** An assignment and an erasure under different keys can be made in
    either order. *)
Lemma assign_erase_comm (k1 k2 : K) (v : V) (m : list (K * V)) :
  k1 <> k2 -> ordered m ->
  erase k1 (assign k2 v m) = assign k2 v (erase k1 m).
Proof.
  intros Hne Hm.
  apply ordered_ext.
  - apply (StdMapFacts.ordered_erase cmp cmp_eq),
      (StdMapFacts.ordered_assign cmp cmp_eq cmp_antisym cmp_trans), Hm.
  - apply (StdMapFacts.ordered_assign cmp cmp_eq cmp_antisym cmp_trans),
      (StdMapFacts.ordered_erase cmp cmp_eq), Hm.
  - intros k. destruct (cmp k k1) eqn:H1.
    + apply cmp_eq in H1. subst k.
      rewrite (StdMapFacts.find_erase_same cmp).
      rewrite (StdMapFacts.find_assign_other cmp cmp_eq) by congruence.
      now rewrite (StdMapFacts.find_erase_same cmp).
    + assert (Hk1 : k1 <> k)
        by (intros ->; rewrite (StdMapFacts.cmp_refl cmp cmp_eq) in H1; discriminate).
      rewrite (StdMapFacts.find_erase_other cmp cmp_eq) by exact Hk1.
      destruct (cmp k k2) eqn:H2; [apply cmp_eq in H2; subst k | |].
      * now rewrite !(StdMapFacts.find_assign_same cmp cmp_eq).
      * assert (Hk2 : k2 <> k)
          by (intros ->; rewrite (StdMapFacts.cmp_refl cmp cmp_eq) in H2; discriminate).
        rewrite !(StdMapFacts.find_assign_other cmp cmp_eq) by exact Hk2.
        now rewrite (StdMapFacts.find_erase_other cmp cmp_eq).
      * assert (Hk2 : k2 <> k)
          by (intros ->; rewrite (StdMapFacts.cmp_refl cmp cmp_eq) in H2; discriminate).
        rewrite !(StdMapFacts.find_assign_other cmp cmp_eq) by exact Hk2.
        now rewrite (StdMapFacts.find_erase_other cmp cmp_eq).
    + assert (Hk1 : k1 <> k)
        by (intros ->; rewrite (StdMapFacts.cmp_refl cmp cmp_eq) in H1; discriminate).
      rewrite (StdMapFacts.find_erase_other cmp cmp_eq) by exact Hk1.
      destruct (cmp k k2) eqn:H2; [apply cmp_eq in H2; subst k | |].
      * now rewrite !(StdMapFacts.find_assign_same cmp cmp_eq).
      * assert (Hk2 : k2 <> k)
          by (intros ->; rewrite (StdMapFacts.cmp_refl cmp cmp_eq) in H2; discriminate).
        rewrite !(StdMapFacts.find_assign_other cmp cmp_eq) by exact Hk2.
        now rewrite (StdMapFacts.find_erase_other cmp cmp_eq).
      * assert (Hk2 : k2 <> k)
          by (intros ->; rewrite (StdMapFacts.cmp_refl cmp cmp_eq) in H2; discriminate).
        rewrite !(StdMapFacts.find_assign_other cmp cmp_eq) by exact Hk2.
        now rewrite (StdMapFacts.find_erase_other cmp cmp_eq).
Qed.

Lemma length_assign_le (k : K) (v : V) (m : list (K * V)) :
  (length (assign k v m) <= S (length m))%nat.
Proof.
  induction m as [| [k' v'] m IH]; cbn [StdMap.assign length]; [lia |].
  destruct (cmp k k'); cbn [length]; lia.
Qed.

End Order.

End StdMapOrder.

(** ** The leaf classes *)

Lemma Utf8Length_bounds (s : jsstring) :
  Z.of_nat (length s) <= V8String.Utf8Length s <= 4 * Z.of_nat (length s).
Proof.
  induction s as [| c s IH]; [cbn; lia |].
  unfold V8String.Utf8Length in *. cbn [fold_right length].
  pose proof (char_length_pos c). lia.
Qed.

Lemma Utf8Length_ascii (s : jsstring) :
  forallb (fun c => c <? 128) s = true -> V8String.Utf8Length s = Z.of_nat (length s).
Proof.
  induction s as [| c s IH]; [reflexivity |].
  cbn [forallb]. intros H. apply andb_true_iff in H as [Hc Hs].
  unfold V8String.Utf8Length in *. cbn [fold_right length].
  rewrite IH by exact Hs. unfold Utf8.char_length. rewrite Hc. lia.
Qed.

(** X1. [JsString]: a string handed to [JsString::from_v8] comes back from
    [to_v8] as the same string, code point by code point, the empty string
    and strings with NUL characters inside included. *)
Theorem JsString_round_trip (s : jsstring) :
  valid_string s = true -> to_v8 (JsString_from_v8 s) = V8String s.
Proof.
  intros Hs. rewrite JsString_from_v8_spec. cbn [to_v8].
  now rewrite String_New_whole, decode_encode.
Qed.

(** [JsString_round_trip] at "h" NUL U+00E9 U+1F600 and at the empty
    string. *)
Lemma JsString_round_trip_witness :
  (valid_string [104; 0; 233; 128512] = true
   /\ to_v8 (JsString_from_v8 [104; 0; 233; 128512]) = V8String [104; 0; 233; 128512])
  /\ (valid_string [] = true /\ to_v8 (JsString_from_v8 []) = V8String []).
Proof.
  split; (split; [reflexivity | apply JsString_round_trip; reflexivity]).
Defined.

(** X2. [JsString::from_v8] fills the buffer it allocates: [WriteUtf8]
    writes exactly [m_size] bytes into the [m_size] bytes of [m_buff], so
    [to_v8] reads no byte that was not written.  [m_size] counts bytes, not
    characters: it lies between the number of characters and four times
    that number, and equals it for a string of ASCII characters. *)
Theorem JsString_buffer_filled (s : jsstring) :
  exists m_buff m_size,
    JsString_from_v8 s = JsString m_buff m_size
    /\ Z.of_nat (length m_buff) = m_size
    /\ Z.of_nat (length s) <= m_size <= 4 * Z.of_nat (length s)
    /\ (forallb (fun c => c <? 128) s = true -> m_size = Z.of_nat (length s)).
Proof.
  exists (V8String.WriteUtf8 s (V8String.Utf8Length s)), (V8String.Utf8Length s).
  split; [reflexivity |]. split.
  - rewrite WriteUtf8_fits by lia. now rewrite Utf8Length_encode.
  - split; [apply Utf8Length_bounds | apply Utf8Length_ascii].
Qed.

(** [JsString_buffer_filled] at "hi"; "h" U+00E9 U+20AC U+1F600 takes
    1 + 2 + 3 + 4 bytes. *)
Lemma JsString_buffer_filled_witness :
  (forallb (fun c => c <? 128) [104; 105] = true
   /\ exists m_buff m_size,
       JsString_from_v8 [104; 105] = JsString m_buff m_size /\ m_size = 2)
  /\ JsString_from_v8 [104; 233; 8364; 128512]
     = JsString [104; 195; 169; 226; 130; 172; 240; 159; 152; 128] 10.
Proof.
  destruct (JsString_buffer_filled [104; 105]) as [b [n [Hfrom [_ [_ Hascii]]]]].
  split; [| reflexivity]. split; [reflexivity |].
  exists b, n. split; [exact Hfrom | exact (Hascii eq_refl)].
Defined.

Lemma to_int32_fixed (z : Z) : Int.to_int32 z = z <-> Int.in_int32 z = true.
Proof.
  split; [| apply to_int32_id].
  intros H. rewrite <- H. apply to_int32_in_range.
Qed.

(** X3. The numeric classes that [from_v8] chooses between: [JsNumber]
    gives back every number it is given; [JsInt32] gives back the number
    it is given exactly when that number passes [IsInt32()], which is the
    test [from_v8] makes before choosing it.  Any other number would come
    back from [JsInt32] changed: wrapped modulo 2^32, truncated, or as 0. *)
Theorem numeric_classes_lossless (d : double) :
  to_v8 (JsNumber_from_v8 d) = V8Number d
  /\ (to_v8 (JsInt32_from_v8 d) = V8Number d <-> V8.IsInt32 (V8Number d) = true).
Proof.
  split; [reflexivity |].
  unfold JsInt32_from_v8, V8.Int32Value, Double.ToInt32.
  cbn [to_v8 V8.Int32_New V8.IsInt32].
  destruct d as [z | m k | | s |]; cbn [Double.trunc];
    try (split; discriminate).
  rewrite <- to_int32_fixed. split; [now intros [= ->] | now intros ->].
Qed.

(** ** The array loops *)

(** X4. [JsArray]: the index loops of [JsArray::from_v8] and
    [JsArray::to_v8], as they are written, build what [from_v8] and [to_v8]
    give for an array; the array that comes back has the length of the
    array that went in, and under every index the decoded encoding of the
    element that was there (beyond the end both read as [undefined]). *)
Theorem JsArray_loops (arr : list v8value) :
  exists m_vals out,
    JsArray_from_v8 from_v8 arr = JsArray m_vals
    /\ from_v8 (V8Array arr) = JsArray m_vals
    /\ JsArray_to_v8 to_v8 m_vals = V8Array out
    /\ to_v8 (JsArray m_vals) = V8Array out
    /\ length m_vals = length arr
    /\ V8.Array_Length out = V8.Array_Length arr
    /\ forall i, V8.Array_Get out i = to_v8 (from_v8 (V8.Array_Get arr i)).
Proof.
  exists (map from_v8 arr), (map to_v8 (map from_v8 arr)).
  split; [apply JsArray_from_v8_loop |]. split; [reflexivity |].
  split; [apply JsArray_to_v8_loop |]. split; [reflexivity |].
  split; [apply length_map |].
  split; [unfold V8.Array_Length; now rewrite !length_map |].
  intros i. unfold V8.Array_Get. rewrite map_map.
  change V8Undefined with (to_v8 (from_v8 V8Undefined)) at 1.
  apply (map_nth (fun x => to_v8 (from_v8 x))).
Qed.

(** ** What every encoded tree satisfies *)

Lemma ordered_ascending (m_values : MemberMap) :
  StdMap.ordered string_compare m_values -> ascending (map fst m_values) = true.
Proof.
  unfold StdMap.ordered, StdMap.keys.
  induction 1 as [| a names Hsorted IH Hall]; [reflexivity |].
  destruct names as [| b names]; [reflexivity |].
  cbn [ascending]. inversion Hall as [| ? ? Hab _]; subst.
  unfold StdMap.key_lt in Hab. now rewrite Hab.
Qed.

Lemma ascii_char_not_nul (u : Z) : V8String.ascii_char u <> 0.
Proof.
  unfold V8String.ascii_char. destruct (Z.eqb_spec (u mod 256) 0); lia.
Qed.

Lemma AsciiValue_without_nul (k : jsstring) : without_nul (V8String.AsciiValue k) = true.
Proof.
  unfold V8String.AsciiValue, V8String.WriteAscii, without_nul.
  apply forallb_forall. intros b Hb. apply in_map_iff in Hb as [u [<- _]].
  apply negb_true_iff, Z.eqb_neq, ascii_char_not_nul.
Qed.

Lemma until_nul_whole (name : bytes) :
  without_nul name = true -> V8String.until_nul (V8String.c_str name) = name.
Proof.
  unfold V8String.c_str, without_nul.
  induction name as [| b name IH]; [reflexivity |].
  cbn [forallb app V8String.until_nul]. intros H. apply andb_true_iff in H as [Hb Hname].
  apply negb_true_iff in Hb. now rewrite Hb, IH.
Qed.

(** The shape of a proof that all of an encoded tree has a property that
    is checked node by node. *)
Lemma from_v8_everywhere (P : JsValue -> bool) :
  P JsUndefined = true ->
  (forall d, P (JsNumber d) = true) ->
  (forall d, P (JsInt32 (V8.Int32Value d)) = true) ->
  (forall s, P (JsString_from_v8 s) = true) ->
  (forall m_vals, forallb P m_vals = true -> P (JsArray m_vals) = true) ->
  (forall props m_values,
      from_v8 (V8Object props) = JsObj m_values ->
      forallb (fun entry => P (snd entry)) m_values = true -> P (JsObj m_values) = true) ->
  forall v, P (from_v8 v) = true.
Proof.
  intros Hundefined Hnumber Hint32 Hstring Harray Hobj.
  induction v as [| | b | d | s | elems IH | props IH | props IH] using v8value_induction;
    try exact Hundefined.
  - cbn [from_v8]. destruct (V8.IsInt32 (V8Number d)); [apply Hint32 | apply Hnumber].
  - apply Hstring.
  - cbn [from_v8]. apply Harray, forallb_forall. intros x Hx.
    apply in_map_iff in Hx as [y [<- Hy]]. rewrite Forall_forall in IH. now apply IH.
  - apply (Hobj props); [reflexivity |].
    apply forallb_forall. intros [k x] Hin. cbn [snd].
    apply from_v8_members in Hin as [kv [Hkv [_ ->]]].
    rewrite Forall_forall in IH. now apply IH.
  - rewrite from_v8_V8Function. apply (Hobj props); [reflexivity |].
    apply forallb_forall. intros [k x] Hin. cbn [snd].
    apply from_v8_members in Hin as [kv [Hkv [_ ->]]].
    rewrite Forall_forall in IH. now apply IH.
Qed.

(** X5. Every [JsString] node of every tree [from_v8] builds, at whatever
    depth, holds a buffer of exactly [m_size] bytes: [to_v8] never reads
    past a buffer, whatever was stored. *)
Theorem encoded_buffers_filled (v : v8value) : buffers_filled (from_v8 v) = true.
Proof.
  apply from_v8_everywhere; try reflexivity.
  - intros s. rewrite JsString_from_v8_spec. cbn [buffers_filled]. apply Z.eqb_refl.
  - intros m_vals H. exact H.
  - intros props m_values _ H. exact H.
Qed.

(** X6. No member name of any tree [from_v8] builds holds a NUL byte
    ([AsciiValue] writes a NUL as a space), so the [c_str()] from which
    [JsObj::to_v8] builds the property name yields the whole stored name,
    never a prefix of it. *)
Theorem encoded_names_without_nul (v : v8value) :
  names_without_nul (from_v8 v) = true
  /\ forall props m_values name x,
      from_v8 (V8Object props) = JsObj m_values -> In (name, x) m_values ->
      V8String.until_nul (V8String.c_str name) = name.
Proof.
  assert (Hnames : forall props m_values name x,
             from_v8 (V8Object props) = JsObj m_values -> In (name, x) m_values ->
             without_nul name = true).
  { intros props m_values name x Hm Hin. rewrite from_v8_V8Object in Hm.
    injection Hm as <-. apply from_v8_members in Hin as [kv [_ [-> _]]].
    apply AsciiValue_without_nul. }
  split.
  - apply from_v8_everywhere; try reflexivity.
    + intros m_vals H. exact H.
    + intros props m_values Hm Hrest. cbn [names_without_nul].
      apply forallb_forall. intros [name x] Hin. cbn [fst snd].
      rewrite (Hnames props m_values name x Hm Hin). cbn [andb].
      rewrite forallb_forall in Hrest. exact (Hrest (name, x) Hin).
  - intros props m_values name x Hm Hin. apply until_nul_whole. eauto.
Qed.

(** [encoded_names_without_nul] at the object with the one property
    "a" NUL "b": it is stored under the name "a b". *)
Lemma encoded_names_without_nul_witness :
  from_v8 (V8Object [([97; 0; 98], V8Null)]) = JsObj [([97; 32; 98], JsUndefined)]
  /\ V8String.until_nul (V8String.c_str [97; 32; 98]) = [97; 32; 98].
Proof.
  split; [reflexivity |].
  apply (proj2 (encoded_names_without_nul V8Null)
               [([97; 0; 98], V8Null)] [([97; 32; 98], JsUndefined)] [97; 32; 98] JsUndefined).
  - reflexivity.
  - now left.
Defined.

(** X7. Every [JsObj] node of every tree [from_v8] builds, at whatever
    depth, meets its members in strictly ascending byte order of their
    names, whatever order the source objects had them in. *)
Theorem encoded_members_ascending (v : v8value) : members_ascending (from_v8 v) = true.
Proof.
  apply from_v8_everywhere; try reflexivity.
  - intros m_vals H. exact H.
  - intros props m_values Hm Hrest. cbn [members_ascending]. rewrite Hrest, andb_true_r.
    apply ordered_ascending. rewrite from_v8_V8Object in Hm. injection Hm as <-.
    apply from_v8_members_ordered.
Qed.

(** ** Encoding what was decoded *)








(** ** The member map of an encoded object *)

Lemma members_loop_length (props : list (jsstring * v8value)) (acc : MemberMap) :
  (length (fold_left
             (fun m kv => StdMap.assign string_compare (V8String.AsciiValue (fst kv))
                                        (from_v8 (snd kv)) m)
             props acc)
   <= length acc + length props)%nat.
Proof.
  revert acc. induction props as [| kv props IH]; intros acc; cbn [fold_left length].
  - lia.
  - etransitivity; [apply IH |].
    pose proof (StdMapOrder.length_assign_le string_compare
                  (V8String.AsciiValue (fst kv)) (from_v8 (snd kv)) acc).
    lia.
Qed.

Lemma members_loop_keeps (name : bytes) (props : list (jsstring * v8value)) (acc : MemberMap) :
  StdMap.find string_compare name acc <> None ->
  StdMap.find string_compare name
    (fold_left
       (fun m kv => StdMap.assign string_compare (V8String.AsciiValue (fst kv))
                                  (from_v8 (snd kv)) m)
       props acc) <> None.
Proof.
  revert acc. induction props as [| kv props IH]; intros acc Hacc; cbn [fold_left].
  - exact Hacc.
  - apply IH.
    destruct (list_eq_dec Z.eq_dec (V8String.AsciiValue (fst kv)) name) as [<- | Hne].
    + rewrite (StdMapFacts.find_assign_same string_compare string_compare_eq). discriminate.
    + now rewrite (StdMapFacts.find_assign_other string_compare string_compare_eq).
Qed.

Lemma members_loop_has (kv : jsstring * v8value) (props : list (jsstring * v8value))
      (acc : MemberMap) :
  In kv props ->
  StdMap.find string_compare (V8String.AsciiValue (fst kv))
    (fold_left
       (fun m kv => StdMap.assign string_compare (V8String.AsciiValue (fst kv))
                                  (from_v8 (snd kv)) m)
       props acc) <> None.
Proof.
  revert acc. induction props as [| kv' props IH]; intros acc; cbn [fold_left In]; [tauto |].
  intros [-> | Hin]; [| now apply IH].
  apply members_loop_keeps.
  rewrite (StdMapFacts.find_assign_same string_compare string_compare_eq). discriminate.
Qed.

Lemma members_find_iff_In (k : bytes) (x : JsValue) (m : MemberMap) :
  StdMap.ordered string_compare m ->
  (StdMap.find string_compare k m = Some x <-> In (k, x) m).
Proof.
  apply StdMapOrder.find_iff_In;
    first [apply string_compare_eq | intros; apply string_compare_antisym
          | apply string_compare_trans].
Qed.

(** X10. [JsObj::from_v8]: for an object with distinct property names, the
    loop over [GetPropertyNames()] and [Get(k)], as it is written, builds
    the member map of [from_v8]; the map never has more members than the
    object has properties, and every property has a member under the
    [AsciiValue] of its name.  Where the names are ASCII without NUL the map has one
    member per property, and looking a name up in it finds the encoding of
    the property of that name, and nothing for any other name. *)
Theorem JsObj_members (o : list (jsstring * v8value)) :
  NoDup (map fst o) ->
  exists m_values,
    JsObj_from_v8 from_v8 o = JsObj m_values
    /\ from_v8 (V8Object o) = JsObj m_values
    /\ (length m_values <= length o)%nat
    /\ (forall k, In k (V8.GetPropertyNames o) ->
                  StdMap.find string_compare (V8String.AsciiValue k) m_values <> None)
    /\ (forallb ascii_name (V8.GetPropertyNames o) = true ->
        length m_values = length o
        /\ forall k, StdMap.find string_compare k m_values
                     = if V8.Object_Has o k then Some (from_v8 (V8.Object_Get o k))
                       else None).
Proof.
  intros Hnd. eexists.
  split; [now apply JsObj_from_v8_loop |].
  split; [apply from_v8_V8Object |].
  split; [apply (members_loop_length o []) |].
  split.
  { intros k Hk. apply in_map_iff in Hk as [kv [<- Hkv]]. now apply members_loop_has. }
  intros Hascii.
  destruct (from_v8_members_ascii o Hnd Hascii _ (from_v8_V8Object o)) as [Hperm _].
  split.
  { rewrite (Permutation_length Hperm). apply length_map. }
  intros k.
  pose proof (from_v8_members_ordered o) as Hordered.
  assert (Hfind : forall x,
             StdMap.find string_compare k
               (fold_left
                  (fun m kv => StdMap.assign string_compare (V8String.AsciiValue (fst kv))
                                             (from_v8 (snd kv)) m)
                  o [])
             = Some x
             <-> exists y, In (k, y) o /\ x = from_v8 y).
  { intros x.
    rewrite (members_find_iff_In k x _ Hordered).
    split.
    - intros Hin. apply (Permutation_in _ Hperm) in Hin.
      apply in_map_iff in Hin as [[k' y] [[= -> <-] Hkv]]. now exists y.
    - intros [y [Hkv ->]]. apply (Permutation_in _ (Permutation_sym Hperm)).
      apply in_map_iff. now exists (k, y). }
  destruct (V8.Object_Has o k) eqn:Hhas.
  - apply Object_Has_In in Hhas. apply in_map_iff in Hhas as [[k' y] [Hk Hkv]].
    cbn [fst] in Hk. subst k'.
    rewrite (Object_Get_In o k y Hnd Hkv). apply Hfind. now exists y.
  - apply Object_Has_false in Hhas.
    destruct (StdMap.find string_compare k _) as [x |]; [| reflexivity].
    destruct (proj1 (Hfind x) eq_refl) as [y [Hkv _]]. exfalso. apply Hhas.
    change k with (fst (k, y)). now apply in_map.
Qed.

(** [JsObj_members] at the object b := 1, a := "s", and at an object whose
    two names U+0141 and "A" have the same [AsciiValue]: one member is
    left of the two properties. *)
Lemma JsObj_members_witness :
  (NoDup (map fst [([98], V8Number (DInt 1)); ([97], V8String [115])])
   /\ forallb ascii_name
        (V8.GetPropertyNames [([98], V8Number (DInt 1)); ([97], V8String [115])]) = true
   /\ exists m_values,
       JsObj_from_v8 from_v8 [([98], V8Number (DInt 1)); ([97], V8String [115])]
       = JsObj m_values
       /\ length m_values = 2%nat
       /\ StdMap.find string_compare [97] m_values = Some (JsString [115] 1)
       /\ StdMap.find string_compare [99] m_values = None)
  /\ from_v8 (V8Object [([321], V8Number (DInt 1)); ([65], V8Number (DInt 2))])
     = JsObj [([65], JsInt32 2)].
Proof.
  assert (Hnd : NoDup (map fst [([98], V8Number (DInt 1)); ([97], V8String [115])])).
  { cbn [map fst]. constructor.
    - intros [H | []]. discriminate H.
    - constructor; [intros [] | constructor]. }
  split; [| reflexivity].
  split; [exact Hnd |]. split; [reflexivity |].
  destruct (JsObj_members [([98], V8Number (DInt 1)); ([97], V8String [115])] Hnd)
    as [m_values [Hloop [_ [_ [_ Hascii]]]]].
  destruct (Hascii eq_refl) as [Hlength Hfind].
  exists m_values. split; [exact Hloop |]. split; [exact Hlength |].
  split; [exact (Hfind [97]) | exact (Hfind [99])].
Defined.

(** ** The store, further *)

Section StoreFurther.

Variable StringToNumber : jsstring -> double.
Variable ObjectToNumber : v8value -> double.

Local Abbreviation key_of := (IntegerValue StringToNumber ObjectToNumber).
Local Abbreviation store_set := (BypassStore_Set StringToNumber ObjectToNumber).
Local Abbreviation store_get := (BypassStore_Get StringToNumber ObjectToNumber).
Local Abbreviation store_del := (BypassStore_Del StringToNumber ObjectToNumber).
Local Abbreviation store_list := BypassStore_List.
Local Abbreviation store_run := (run StringToNumber ObjectToNumber).
Local Abbreviation lookup := (StdMap.find Z.compare).

Lemma reachable_ordered (calls : list call) :
  StdMap.ordered Z.compare (store_run calls BypassStore_New).
Proof. apply run_ordered. constructor. Qed.

(** The keys of a store were all set by a call of [set]. *)
Lemma run_keys_were_set (k : Z) (calls : list call) (m_cache : CacheMap) :
  In k (StdMap.keys (store_run calls m_cache)) ->
  In k (StdMap.keys m_cache)
  \/ exists args, In (CallSet args) calls /\ key_of (arg args 0) = k.
Proof.
  revert m_cache. induction calls as [| c calls IH]; intros m Hin; cbn [run fold_left] in Hin.
  - now left.
  - destruct (IH _ Hin) as [Hm | [args [Hargs Hk]]].
    + destruct c as [args | args | args | args]; cbn [invoke] in Hm.
      * cbn [BypassStore_Set snd] in Hm.
        apply (StdMapFacts.keys_assign Z.compare Z.compare_eq_iff) in Hm as [-> | Hm].
        -- right. exists args. split; [now left | reflexivity].
        -- now left.
      * rewrite Get_store in Hm. now left.
      * cbn [BypassStore_Del snd] in Hm.
        apply (StdMapFacts.keys_erase Z.compare Z.compare_eq_iff) in Hm as [_ Hm].
        now left.
      * now left.
    + right. exists args. split; [now right | exact Hk].
Qed.

(** X11. The invariant of the store: after any run of calls on a new
    store, the map holds its keys in strictly ascending order, each once,
    and the keys it holds are exactly those that [get] finds an entry
    for. *)
Theorem store_keys_ascending (calls : list call) :
  StronglySorted Z.lt (StdMap.keys (store_run calls BypassStore_New))
  /\ NoDup (StdMap.keys (store_run calls BypassStore_New))
  /\ forall k, In k (StdMap.keys (store_run calls BypassStore_New))
               <-> lookup k (store_run calls BypassStore_New) <> None.
Proof.
  split; [exact (reachable_ordered calls) |]. split.
  - apply (StdMapFacts.ordered_NoDup Z.compare Z.compare_eq_iff), reachable_ordered.
  - intros k. symmetry. apply StdMapFacts.find_some_in_keys, Z.compare_eq_iff.
Qed.

(** X12. [list()] where the keys fit: after any run of calls on a new
    store in which every [set] used a key within the signed 32-bit range,
    [list()] returns the numbers of exactly the keys that have an entry, in
    strictly ascending order. *)
Theorem list_of_int32_keys (calls : list call) (args : Arguments) :
  (forall set_args, In (CallSet set_args) calls ->
                    Int.in_int32 (key_of (arg set_args 0)) = true) ->
  exists ks,
    fst (store_list args (store_run calls BypassStore_New))
    = Some (V8Array (map (fun k => V8Number (DInt k)) ks))
    /\ StronglySorted Z.lt ks
    /\ forall k, In k ks <-> lookup k (store_run calls BypassStore_New) <> None.
Proof.
  intros Hkeys. exists (StdMap.keys (store_run calls BypassStore_New)).
  split; [| split].
  - rewrite List_spec. cbn [fst]. do 2 f_equal.
    unfold StdMap.keys. rewrite map_map. apply map_ext_in. intros e He.
    unfold V8.Int32_New. rewrite to_int32_id; [reflexivity |].
    assert (Hin : In (fst e) (StdMap.keys (store_run calls BypassStore_New)))
      by (unfold StdMap.keys; now apply in_map).
    apply run_keys_were_set in Hin as [[] | [set_args [Hcall <-]]].
    now apply Hkeys.
  - exact (reachable_ordered calls).
  - intros k. symmetry. apply StdMapFacts.find_some_in_keys, Z.compare_eq_iff.
Qed.

(** X13. Counting entries: on a store reached by any run of calls, [set]
    adds one entry when the key has none and none when it has one, [del]
    removes one entry when the key has one and none when it has none, and
    the array [list()] returns has one element per entry. *)
Theorem entry_count (calls : list call) (key v : v8value) (args : Arguments) :
  length (snd (store_set [key; v] (store_run calls BypassStore_New)))
  = match lookup (key_of key) (store_run calls BypassStore_New) with
    | Some _ => length (store_run calls BypassStore_New)
    | None => S (length (store_run calls BypassStore_New))
    end
  /\ length (snd (store_del [key] (store_run calls BypassStore_New)))
     = match lookup (key_of key) (store_run calls BypassStore_New) with
       | Some _ => pred (length (store_run calls BypassStore_New))
       | None => length (store_run calls BypassStore_New)
       end
  /\ exists arr,
      fst (store_list args (store_run calls BypassStore_New)) = Some (V8Array arr)
      /\ length arr = length (store_run calls BypassStore_New).
Proof.
  pose proof (reachable_ordered calls) as Hordered.
  split; [| split].
  - unfold BypassStore_Set, arg. cbn [nth snd].
    apply (StdMapOrder.length_assign Z.compare Z.compare_eq_iff);
      first [intros; apply Z.compare_antisym | apply Z_compare_trans | exact Hordered].
  - unfold BypassStore_Del, arg. cbn [nth snd].
    apply (StdMapOrder.length_erase Z.compare Z.compare_eq_iff);
      first [intros; apply Z.compare_antisym | apply Z_compare_trans | exact Hordered].
  - eexists. rewrite List_spec. split; [reflexivity | apply length_map].
Qed.

(** X14. [del] undoes [set]: deleting a key right after setting it leaves
    the store that deleting it without the [set] leaves, which is the store
    itself when the key had no entry; deleting twice is deleting once. *)
Theorem set_then_del (key v : v8value) (m_cache : CacheMap) :
  snd (store_del [key] (snd (store_set [key; v] m_cache))) = snd (store_del [key] m_cache)
  /\ (lookup (key_of key) m_cache = None ->
      snd (store_del [key] (snd (store_set [key; v] m_cache))) = m_cache)
  /\ snd (store_del [key] (snd (store_del [key] m_cache))) = snd (store_del [key] m_cache).
Proof.
  unfold BypassStore_Set, BypassStore_Del, arg. cbn [nth snd].
  split; [| split].
  - apply StdMapOrder.erase_assign, Z.compare_eq_iff.
  - intros Habsent.
    rewrite (StdMapOrder.erase_assign Z.compare Z.compare_eq_iff).
    now apply cache_erase_absent.
  - apply StdMapOrder.erase_erase.
Qed.

(** X15. Calls on different keys can be made in either order: on a store
    reached by any run of calls, two [set]s, a [set] and a [del], or two
    [del]s under different keys leave the same store whichever comes
    first. *)
Theorem calls_on_different_keys_commute
        (calls : list call) (key1 key2 v1 v2 : v8value) :
  key_of key1 <> key_of key2 ->
  snd (store_set [key1; v1] (snd (store_set [key2; v2] (store_run calls BypassStore_New))))
  = snd (store_set [key2; v2] (snd (store_set [key1; v1] (store_run calls BypassStore_New))))
  /\ snd (store_del [key1] (snd (store_set [key2; v2] (store_run calls BypassStore_New))))
     = snd (store_set [key2; v2] (snd (store_del [key1] (store_run calls BypassStore_New))))
  /\ snd (store_del [key1] (snd (store_del [key2] (store_run calls BypassStore_New))))
     = snd (store_del [key2] (snd (store_del [key1] (store_run calls BypassStore_New)))).
Proof.
  intros Hne. pose proof (reachable_ordered calls) as Hordered.
  unfold BypassStore_Set, BypassStore_Del, arg. cbn [nth snd].
  split; [| split].
  - apply (StdMapOrder.assign_comm Z.compare Z.compare_eq_iff);
      first [intros; apply Z.compare_antisym | apply Z_compare_trans
            | exact Hne | exact Hordered].
  - apply (StdMapOrder.assign_erase_comm Z.compare Z.compare_eq_iff);
      first [intros; apply Z.compare_antisym | apply Z_compare_trans
            | exact Hne | exact Hordered].
  - apply StdMapOrder.erase_comm.
Qed.

(** X16. Keys are compared after conversion to [int64_t]: a numeric key
    with a fraction is truncated toward zero, and any two key arguments
    that convert to the same integer address the same entry, so [get]
    under the one returns what [set] under the other stored, and [del]
    under the one removes it. *)
Theorem keys_compared_after_conversion
        (key1 key2 v : v8value) (m_cache : CacheMap) (m : Z) (k : positive) :
  (Int.in_int64 (Z.quot m (2 ^ Z.pos k)) = true ->
   key_of (V8Number (DFrac m k)) = Z.quot m (2 ^ Z.pos k))
  /\ (key_of key1 = key_of key2 ->
      fst (store_get [key2] (snd (store_set [key1; v] m_cache)))
      = Some (to_v8 (from_v8 v))
      /\ fst (store_get [key1] (snd (store_del [key2] (snd (store_set [key1; v] m_cache)))))
         = Some V8Undefined).
Proof.
  split.
  - intros Hrange. unfold IntegerValue. cbn [V8.IsNumber ToNumber].
    unfold Double.static_cast_int64. cbn [Double.trunc]. now rewrite Hrange.
  - intros Hsame. rewrite !Get_spec.
    unfold BypassStore_Set, BypassStore_Del, arg. cbn [nth snd fst].
    rewrite <- Hsame. split.
    + now rewrite cache_find_assign_same.
    + now rewrite cache_find_erase_same.
Qed.

(** X17. What is stored as [Undefined]: a value is encoded as
    [JsUndefined] exactly when it is neither a number, a string nor an
    object, and so is the value of a [set] called without one.  [get]
    returns [undefined] for such an entry as it does for a key that has
    none, but the key has an entry: the store holds it. *)
Theorem stored_undefined (key v : v8value) (m_cache : CacheMap) :
  (from_v8 v = JsUndefined
   <-> V8.IsNumber v = false /\ V8.IsString v = false /\ V8.IsObject v = false)
  /\ snd (store_set [key] m_cache) = snd (store_set [key; V8Undefined] m_cache)
  /\ (from_v8 v = JsUndefined ->
      fst (store_get [key] (snd (store_set [key; v] m_cache))) = Some V8Undefined
      /\ fst (store_get [key] (snd (store_del [key] m_cache))) = Some V8Undefined
      /\ lookup (key_of key) (snd (store_set [key; v] m_cache)) = Some JsUndefined
      /\ lookup (key_of key) (snd (store_del [key] m_cache)) = None).
Proof.
  split; [| split; [reflexivity |]].
  - destruct v as [| | b | d | s | elems | props | props];
      cbn [from_v8 V8.IsNumber V8.IsString V8.IsObject].
    + tauto.
    + tauto.
    + tauto.
    + split; [| intros [H _]; discriminate].
      destruct (V8.IsInt32 (V8Number d)); discriminate.
    + split; [discriminate | intros [_ [H _]]; discriminate].
    + split; [discriminate | intros [_ [_ H]]; discriminate].
    + split; [discriminate | intros [_ [_ H]]; discriminate].
    + split; [discriminate | intros [_ [_ H]]; discriminate].
  - intros Hv. rewrite !Get_spec.
    unfold BypassStore_Set, BypassStore_Del, arg. cbn [nth snd fst].
    rewrite cache_find_assign_same, cache_find_erase_same, Hv. repeat split.
Qed.


End StoreFurther.

(** [list_of_int32_keys] after [set(7, "x"); set(-3, null); del(7);
    set(5, 1)]. *)
Lemma list_of_int32_keys_witness :
  (forall set_args,
      In (CallSet set_args)
         [CallSet [V8Number (DInt 7); V8String [120]]; CallSet [V8Number (DInt (-3)); V8Null];
          CallDel [V8Number (DInt 7)]; CallSet [V8Number (DInt 5); V8Number (DInt 1)]] ->
      Int.in_int32 (IntegerValue (fun _ => DNaN) (fun _ => DNaN) (arg set_args 0)) = true)
  /\ exists ks,
      fst (BypassStore_List []
             (run (fun _ => DNaN) (fun _ => DNaN)
                  [CallSet [V8Number (DInt 7); V8String [120]];
                   CallSet [V8Number (DInt (-3)); V8Null];
                   CallDel [V8Number (DInt 7)];
                   CallSet [V8Number (DInt 5); V8Number (DInt 1)]] BypassStore_New))
      = Some (V8Array (map (fun k => V8Number (DInt k)) ks))
      /\ StronglySorted Z.lt ks.
Proof.
  assert (Hkeys : forall set_args,
             In (CallSet set_args)
                [CallSet [V8Number (DInt 7); V8String [120]];
                 CallSet [V8Number (DInt (-3)); V8Null];
                 CallDel [V8Number (DInt 7)]; CallSet [V8Number (DInt 5); V8Number (DInt 1)]] ->
             Int.in_int32 (IntegerValue (fun _ => DNaN) (fun _ => DNaN) (arg set_args 0))
             = true).
  { intros set_args [[= <-] | [[= <-] | [H | [[= <-] | []]]]];
      try reflexivity; discriminate H. }
  split; [exact Hkeys |].
  destruct (list_of_int32_keys (fun _ => DNaN) (fun _ => DNaN) _ [] Hkeys)
    as [ks [Hlist [Hsorted _]]].
  exists ks. split; [exact Hlist | exact Hsorted].
Defined.

(** [set_then_del] at key 2 of a store that holds key 1 only. *)
Lemma set_then_del_witness :
  StdMap.find Z.compare
    (IntegerValue (fun _ => DNaN) (fun _ => DNaN) (V8Number (DInt 2))) [(1, JsInt32 3)]
  = None
  /\ snd (BypassStore_Del (fun _ => DNaN) (fun _ => DNaN) [V8Number (DInt 2)]
            (snd (BypassStore_Set (fun _ => DNaN) (fun _ => DNaN)
                                  [V8Number (DInt 2); V8Null] [(1, JsInt32 3)])))
     = [(1, JsInt32 3)].
Proof.
  split; [reflexivity |].
  destruct (set_then_del (fun _ => DNaN) (fun _ => DNaN)
                         (V8Number (DInt 2)) V8Null [(1, JsInt32 3)])
    as [_ [Habsent _]].
  apply Habsent. reflexivity.
Defined.

(** [calls_on_different_keys_commute] at the keys 1 and 2 after
    [set(2, "x"); set(3, null)]. *)
Lemma calls_on_different_keys_commute_witness :
  IntegerValue (fun _ => DNaN) (fun _ => DNaN) (V8Number (DInt 1))
  <> IntegerValue (fun _ => DNaN) (fun _ => DNaN) (V8Number (DInt 2))
  /\ snd (BypassStore_Set (fun _ => DNaN) (fun _ => DNaN) [V8Number (DInt 1); V8Null]
            (snd (BypassStore_Set (fun _ => DNaN) (fun _ => DNaN)
                    [V8Number (DInt 2); V8Number (DInt 9)]
                    (run (fun _ => DNaN) (fun _ => DNaN)
                         [CallSet [V8Number (DInt 2); V8String [120]];
                          CallSet [V8Number (DInt 3); V8Null]] BypassStore_New))))
     = snd (BypassStore_Set (fun _ => DNaN) (fun _ => DNaN)
              [V8Number (DInt 2); V8Number (DInt 9)]
              (snd (BypassStore_Set (fun _ => DNaN) (fun _ => DNaN)
                      [V8Number (DInt 1); V8Null]
                      (run (fun _ => DNaN) (fun _ => DNaN)
                           [CallSet [V8Number (DInt 2); V8String [120]];
                            CallSet [V8Number (DInt 3); V8Null]] BypassStore_New)))).
Proof.
  assert (Hne : IntegerValue (fun _ => DNaN) (fun _ => DNaN) (V8Number (DInt 1))
                <> IntegerValue (fun _ => DNaN) (fun _ => DNaN) (V8Number (DInt 2))).
  { discriminate. }
  split; [exact Hne |].
  destruct (calls_on_different_keys_commute (fun _ => DNaN) (fun _ => DNaN)
              [CallSet [V8Number (DInt 2); V8String [120]];
               CallSet [V8Number (DInt 3); V8Null]]
              (V8Number (DInt 1)) (V8Number (DInt 2)) V8Null (V8Number (DInt 9)) Hne)
    as [Hsets _].
  exact Hsets.
Defined.

(** [keys_compared_after_conversion] at the keys 3/2 and 1, and at
    -3/2, which is truncated to -1. *)
Lemma keys_compared_after_conversion_witness :
  (Int.in_int64 (Z.quot (-3) (2 ^ 1)) = true
   /\ IntegerValue (fun _ => DNaN) (fun _ => DNaN) (V8Number (DFrac (-3) 1)) = -1)
  /\ (IntegerValue (fun _ => DNaN) (fun _ => DNaN) (V8Number (DFrac 3 1))
      = IntegerValue (fun _ => DNaN) (fun _ => DNaN) (V8Number (DInt 1))
      /\ fst (BypassStore_Get (fun _ => DNaN) (fun _ => DNaN) [V8Number (DInt 1)]
                (snd (BypassStore_Set (fun _ => DNaN) (fun _ => DNaN)
                        [V8Number (DFrac 3 1); V8String [120]] BypassStore_New)))
         = Some (V8String [120])).
Proof.
  destruct (keys_compared_after_conversion (fun _ => DNaN) (fun _ => DNaN)
              (V8Number (DFrac 3 1)) (V8Number (DInt 1)) (V8String [120])
              BypassStore_New (-3) 1)
    as [Htrunc Hsame].
  split.
  - split; [reflexivity | exact (Htrunc eq_refl)].
  - split; [reflexivity | exact (proj1 (Hsame eq_refl))].
Defined.

(** [stored_undefined] at the value [true] under key 4. *)
Lemma stored_undefined_witness :
  from_v8 (V8Boolean true) = JsUndefined
  /\ fst (BypassStore_Get (fun _ => DNaN) (fun _ => DNaN) [V8Number (DInt 4)]
            (snd (BypassStore_Set (fun _ => DNaN) (fun _ => DNaN)
                    [V8Number (DInt 4); V8Boolean true] BypassStore_New)))
     = Some V8Undefined
  /\ StdMap.find Z.compare
       (IntegerValue (fun _ => DNaN) (fun _ => DNaN) (V8Number (DInt 4)))
       (snd (BypassStore_Set (fun _ => DNaN) (fun _ => DNaN)
               [V8Number (DInt 4); V8Boolean true] BypassStore_New))
     = Some JsUndefined.
Proof.
  destruct (stored_undefined (fun _ => DNaN) (fun _ => DNaN)
              (V8Number (DInt 4)) (V8Boolean true) BypassStore_New)
    as [_ [_ Hstored]].
  destruct (Hstored eq_refl) as [Hget [_ [Hfind _]]].
  split; [reflexivity |]. split; [exact Hget | exact Hfind].
Defined.


(** ** Properties of a decoded object *)



